(* ===== verification/_CoqProject ===== *)
-Q . S2P
Prelude.v
Http.v
HostApi.v
CacheStorage.v
Worker.v
Scenarios.v
Lifecycle.v
Interleaving.v
Versions.v
