(* ===== verification/Prelude.v ===== *)
(** * Verification of the offline-cache service worker [src/sw.js]

    The program is a service worker of 25 lines.  It declares a cache
    name [CACHE_NAME = 'uni-bot-v1'] and an asset list
    [ASSETS = ['./', './index.html']] and registers two event handlers
    with the host (the browser):

    - the [install] handler (sw.js lines 10-16) opens the bucket named
      [CACHE_NAME] with [caches.open] and stores every asset with
      [cache.addAll]; [e.waitUntil] makes the installation succeed or
      fail with that promise;
    - the [fetch] handler (sw.js lines 19-25) looks the request up with
      [caches.match] and answers with the stored response, or, when
      there is none, with [fetch(e.request)] ([response || fetch(...)]).

    The two handlers interact only through the host's CacheStorage: the
    install handler writes the bucket, the fetch handler reads every
    bucket of the origin.  The host is modelled from the Service Worker
    and Fetch standards, since its code is not part of the repository.

    ** Layout of the development

    - [Prelude] (this file): the promise outcomes of JavaScript
      ([Settled]: fulfilled, rejected with a [JsError], or never
      settled), the state-and-promise monad [M W A = W -> Settled A * W]
      with its [do x <- c ; k] notation in [sw_scope], [Promise.all]
      ([promise_all]), JavaScript's [||] on an optional value ([js_or]),
      the hint database [sw], and the tactics [bind_step]
      and [decide_by_compute].
    - [Http]: requests, responses, URLs, the request matching of the
      Cache API (URLs compared without fragment, only [GET] matches),
      the resolution of the relative asset paths against the worker's
      location ([new Request(path)]), and the "ok status" test.
    - [HostApi]: the interface between the worker and the host, a class
      [CacheHost] of the four host operations the worker calls
      ([caches.open], [cache.addAll], [caches.match], [fetch]) with
      observations of the host state, and the class [CacheHostLaws] of
      what the host promises about them.  The worker's theorems are
      proved against this interface only.
    - [CacheStorage]: the host implemented concretely: a CacheStorage
      as an ordered list of named buckets, each an ordered request
      response list, the Cache API's query, batch put and [addAll]
      (every fetch issued, all-or-nothing commit), [caches.match] over
      all buckets in creation order, and [fetch] against a network
      oracle that may answer, fail or never answer.  It proves that the
      implementation satisfies [CacheHostLaws].
    - [Worker]: [CACHE_NAME], [ASSETS], [on_install] and [on_fetch],
      translated line by line from sw.js, generic over [CacheHost], and
      their theorems: the functional behaviour of both handlers on every
      branch, no partial install, no network call on a cache hit,
      exactly one network call on a miss, the handler never writes the
      cache, and settling (liveness) of the fetch handler on a hit.
    - [Scenarios]: the worker run on the concrete host, as tests of the
      executable model: the scenario of the specification, a failing
      asset, and the behaviours the modelling brought out (stale buckets
      of earlier versions answer first, fragments are ignored and
      queries are not, non-ok network responses pass through), each
      checked by evaluation.  They are examples; the general statements
      are the theorems of [Worker] and [Versions].
    - [Lifecycle]: the host's dispatch of the events sw.js listens to,
      as a step relation on (worker state, host state, answers to the
      page): install runs [on_install] and [e.waitUntil] turns its
      outcome into installed / redundant / installing for ever; activate
      has no handler; fetch events reach only the active worker and run
      [on_fetch].  By induction on reachability: the host stays well
      formed and every asset stays answered from installation on; an
      active worker serves every asset without the network.
    - [Interleaving]: the handlers split at their awaits into threads
      ([Thread]): the chain of the install handler ([install_chain],
      sw.js lines 12-14) and that of the fetch handler ([fetch_chain],
      lines 21-23), one step per [.then]; [thread_step] takes the next
      step of a thread by its handler's chain.  A pool
      of handler invocations sharing one host state, and the host's
      scheduler ([run_step], [sched_step]) that runs any thread next or
      dispatches a new event to the listener sw.js registered
      ([listener]).  The pool holds the install handler of a new
      version together with the fetch handlers of the version that
      controls the page, which run the same fetch code.
    - [Versions]: both composed.  A new version's install thread runs
      and is settled by [e.waitUntil] ([wait_until], sw.js line 11)
      into installed or redundant, then activated, while fetch threads
      of the controlling version run in any order; [page_result] is what
      the page receives from [e.respondWith] (line 20).

    ** Groups of theorems

    - Refinement (Worker): [on_fetch] implements [cache_first], the
      abstract cache-first proxy, with one network request exactly on a
      miss and no write to the cache.
    - Functional and error behaviour of the install (Worker): its
      outcome is that of [addAll]; on fulfilment every asset is stored
      with the response the network gave; otherwise nothing is stored;
      it is fulfilled when every asset is answered 2xx (not 206); it is
      rejected by one failure; it never settles when a request never
      completes.
    - Invariants (Lifecycle): in every reachable state the host is well
      formed and, from installation on, every asset is answered; an
      active worker serves every asset without the network.
    - The laws of the interface (CacheStorage): the implementation of
      the Cache API satisfies [CacheHostLaws], in particular the batch
      of puts commits exactly when no two requests match and then every
      request finds its response.
    - Versions (Worker): an install into a new bucket never changes
      what [caches.match] answered before, so an older version's bucket
      keeps serving its copies; after an install, a fetch of an asset
      returns exactly the response the network gave at install (round
      trip).
    - Interleavings (Interleaving): an install sends at most
      [length ASSETS] network requests and a fetch at most one, however
      they interleave (bounds); no fetch handler ever observes a
      partially filled bucket, and only the [addAll] of an install
      writes a bucket, and only its own (invariants by induction on the
      schedule).
    - Composition and the page (Versions): the page gets a network
      error exactly on a miss whose network request fails; an installed
      or active new version had its install fulfilled and holds every
      asset, however fetches interleaved with the install; once active
      it answers every asset without the network; in every reachable
      system a request an older bucket answered keeps being answered
      with that copy, by [caches.match] and by every fetch handler the
      page started, whatever the install did.
    - Lemmas of the models, which hold whatever the handlers compute
      and justify the models rather than the program: a thread run
      alone computes exactly its handler ([threads_implement_handlers]),
      every interleaving is finite ([interleavings_terminate]), and
      each run of the one-worker lifecycle is a run of the composed
      system ([lifecycle_refines_versions]).

    ** Plan for the next steps

    Done: the data, the interface and its implementation, both
    handlers, the lifecycle, versions sharing one CacheStorage, the
    interleaving of handlers at their awaits, their composition with
    the lifecycle of a new version, and the page's view of
    [e.respondWith].  What remains is the host's side of [addAll] as
    two steps (see below), which changes only the numbering of network
    requests.

    ** Bounds and fuel

    Nothing in the program loops: every definition is structural.  A
    network request that never completes is the outcome [Pending], so
    that "the handler settles" is a theorem about the outcome, not an
    assumption.  The only fuel is that of [run_alone] in
    [Interleaving], which runs one thread alone: a handler has two
    awaits, so fuel 2 is enough, and [threads_implement_handlers] holds
    for any fuel of at least 2.  Schedules are finite by the measure
    [pool_size], the awaits the threads have left.

    ** Not modelled

    HTTP headers (hence [Vary] matching and [Vary: *] rejection),
    request bodies, the opaque-response and redirect flags, the
    [ignoreSearch]/[ignoreMethod]/[ignoreVary] options (the program
    never passes them), quota errors of the storage, the abort of the
    pending fetches of a failing [addAll] (they are issued and logged),
    and URL resolution beyond the dot-slash relative paths the asset
    list uses.

    [cache.addAll] is one atomic step of the host: it sends its
    requests and commits its batch at once.  In a browser the requests
    are sent first and the batch is committed when the last response
    has arrived, and other handlers may run in between.  Such a handler
    reads the buckets as they were before the commit, as in the model,
    but its network requests come after those of [addAll], which the
    model cannot show.  The theorems about the contents of the buckets
    ([assets_all_or_none_reachable], [installed_version_has_assets])
    do not depend on this, since the commit is atomic and fetch
    handlers write nothing.  Theorems that read the network's answer
    to a request numbered by its position in the log do depend on it.

    Also left out: clients and navigation, update checks, and
    [skipWaiting]/[clients.claim] (sw.js calls neither). *)

From stdpp Require Import base list.
From Stdlib Require Import Lia.

Declare Scope sw_scope.
Delimit Scope sw_scope with sw.
Open Scope sw_scope.

(** ** Promise outcomes *)

(** The exceptions the modelled host operations reject with. *)
Inductive JsError : Type :=
| TypeError
| InvalidStateError.

#[export] Instance JsError_eq_dec : EqDecision JsError.
Proof. solve_decision. Defined.

(** The final state of a promise; [Pending] is a promise that never
    settles (a network request that never completes). *)
Inductive Settled (A : Type) : Type :=
| Fulfilled (a : A)
| Rejected (e : JsError)
| Pending.
Arguments Fulfilled {A} a.
Arguments Rejected {A} e.
Arguments Pending {A}.

#[export] Instance Settled_eq_dec `{!EqDecision A} : EqDecision (Settled A).
Proof. solve_decision. Defined.

(** ** The state-and-promise monad

    A computation of the worker runs against the host state [W] and
    ends with the outcome of the promise it returns.  [bind] is
    [.then]: the continuation runs only on fulfilment; a rejection or a
    promise that never settles is passed on unchanged. *)
Definition M (W A : Type) : Type := W -> Settled A * W.

Definition ret {W A} (a : A) : M W A := fun w => (Fulfilled a, w).

Definition bind {W A B} (c : M W A) (k : A -> M W B) : M W B :=
  fun w =>
    match c w with
    | (Fulfilled a, w') => k a w'
    | (Rejected e, w') => (Rejected e, w')
    | (Pending, w') => (Pending, w')
    end.

Notation "'do' x <- c ; k" := (bind c (fun x => k))
  (at level 10, x name, c at level 100, k at level 200) : sw_scope.

(** JavaScript's [a || b] where [a] is [undefined] or an object: an
    object is truthy and is the value; otherwise [b] is evaluated. *)
Definition js_or {W A} (o : option A) (k : M W A) : M W A :=
  match o with
  | Some a => ret a
  | None => k
  end.

(** [Promise.all]: fulfilled with every value when all are fulfilled,
    rejected as soon as one is rejected, otherwise never settled. *)
Fixpoint promise_all {A} (l : list (Settled A)) : Settled (list A) :=
  match l with
  | [] => Fulfilled []
  | Rejected e :: _ => Rejected e
  | s :: l' =>
      match promise_all l' with
      | Rejected e => Rejected e
      | Pending => Pending
      | Fulfilled xs =>
          match s with
          | Fulfilled x => Fulfilled (x :: xs)
          | _ => Pending
          end
      end
  end.

Definition is_rejected {A} (s : Settled A) : bool :=
  match s with Rejected _ => true | _ => false end.

(** ** Lemmas on the monad *)

Create HintDb sw discriminated.

Section MonadLemmas.
Context {W A B : Type}.

Lemma bind_ret_l (a : A) (k : A -> M W B) w : bind (ret a) k w = k a w.
Proof. reflexivity. Qed.

Lemma bind_ret_r (c : M W A) w : bind c ret w = c w.
Proof. unfold bind. by destruct (c w) as [[] ?]. Qed.

Lemma bind_assoc {C} (c : M W A) (k : A -> M W B) (h : B -> M W C) w :
  bind (bind c k) h w = bind c (fun a => bind (k a) h) w.
Proof. unfold bind. by destruct (c w) as [[] ?]. Qed.

Lemma bind_fulfilled (c : M W A) (k : A -> M W B) w a w' :
  c w = (Fulfilled a, w') -> bind c k w = k a w'.
Proof. unfold bind. by intros ->. Qed.

Lemma bind_not_fulfilled (c : M W A) (k : A -> M W B) w s w' :
  c w = (s, w') -> (forall a, s <> Fulfilled a) ->
  exists s', bind c k w = (s', w') /\ forall b, s' <> Fulfilled b.
Proof.
  unfold bind. intros -> Hs. destruct s as [a|e|].
  - by destruct (Hs a).
  - by exists (Rejected e).
  - by exists Pending.
Qed.

(** Inversion of a fulfilled [bind]: both stages were fulfilled. *)
Lemma bind_fulfilled_inv (c : M W A) (k : A -> M W B) w b w'' :
  bind c k w = (Fulfilled b, w'') ->
  exists a w', c w = (Fulfilled a, w') /\ k a w' = (Fulfilled b, w'').
Proof.
  unfold bind. destruct (c w) as [[a|e|] w'] eqn:E; intros H; try done.
  eauto.
Qed.
End MonadLemmas.


(** ** Lemmas on [Promise.all] *)

Section PromiseAll.
Context {A : Type}.

Lemma promise_all_fmap (xs : list A) :
  promise_all (map Fulfilled xs) = Fulfilled xs.
Proof. induction xs as [|x xs IH]; simpl; [done|]. by rewrite IH. Qed.

Lemma promise_all_fulfilled (l : list (Settled A)) xs :
  promise_all l = Fulfilled xs <-> l = map Fulfilled xs.
Proof.
  split; [|intros ->; apply promise_all_fmap].
  revert xs. induction l as [|s l IH]; intros xs; simpl; [by intros [= <-]|].
  destruct s as [x|e|]; [|done|]; destruct (promise_all l) eqn:E; try done.
  intros [= <-]. simpl. by rewrite (IH _ eq_refl).
Qed.

(** One rejected promise rejects the whole. *)
Lemma promise_all_rejected (l : list (Settled A)) :
  existsb is_rejected l = true -> exists e, promise_all l = Rejected e.
Proof.
  induction l as [|s l IH]; simpl; [done|].
  destruct s as [x|e|]; simpl; intros H.
  - destruct (IH H) as [e ->]. eauto.
  - eauto.
  - destruct (IH H) as [e ->]. eauto.
Qed.

Lemma promise_all_rejected_inv (l : list (Settled A)) e :
  promise_all l = Rejected e -> existsb is_rejected l = true.
Proof.
  induction l as [|s l IH]; simpl; [done|].
  destruct s as [x|e'|]; simpl; [|done|];
    destruct (promise_all l) eqn:E; try done; intros [= <-]; by apply IH.
Qed.

(** With no rejection, a promise that never settles leaves the whole
    pending. *)
Lemma promise_all_pending (l : list (Settled A)) :
  existsb is_rejected l = false -> Pending ∈ l -> promise_all l = Pending.
Proof.
  induction l as [|s l IH]; simpl; [by intros _ ?%elem_of_nil|].
  intros Hr Hin. destruct s as [x|e|]; simpl in *; [|done|].
  - apply elem_of_cons in Hin as [?|Hin]; [done|].
    by rewrite (IH Hr Hin).
  - destruct (promise_all l) eqn:E; try done.
    by apply promise_all_rejected_inv in E; rewrite E in Hr.
Qed.
End PromiseAll.

(** A list of promises all fulfilled. *)
Lemma all_fulfilled {A} (l : list (Settled A)) :
  (forall s, s ∈ l -> exists a, s = Fulfilled a) -> exists xs, l = map Fulfilled xs.
Proof.
  induction l as [|s l IH]; intros Hall; [by exists []|].
  destruct (Hall s) as [a ->]; [by left|].
  destruct IH as [xs ->]; [intros; apply Hall; by right|]. by exists (a :: xs).
Qed.

Lemma existsb_elem_of {A} (f : A -> bool) (l : list A) :
  existsb f l = true <-> exists x, x ∈ l /\ f x = true.
Proof. rewrite existsb_exists. by setoid_rewrite list_elem_of_In. Qed.

(** ** Boolean filters *)

Section Filter.
Context {A : Type}.

Lemma filter_nil_iff (f : A -> bool) (l : list A) :
  List.filter f l = [] <-> forall x, x ∈ l -> f x = false.
Proof.
  induction l as [|x l IH]; simpl; [split; [by intros _ ? ?%elem_of_nil | done]|].
  setoid_rewrite elem_of_cons. destruct (f x) eqn:E.
  - split; [done|]. intros H. by rewrite H in E by auto.
  - rewrite IH. split; [intros H y [->|?]; auto | intros H y ?; auto].
Qed.

(** Filtering a filtered list with a stronger test. *)
Lemma filter_filter_stronger (f g : A -> bool) (l : list A) :
  (forall x, f x = true -> g x = true) -> List.filter f (List.filter g l) = List.filter f l.
Proof.
  intros Hfg. induction l as [|x l IH]; simpl; [done|].
  destruct (g x) eqn:Eg; simpl; destruct (f x) eqn:Ef; rewrite ?IH; try done.
  by rewrite Hfg in Eg.
Qed.

Lemma filter_filter_negb (f : A -> bool) (l : list A) :
  List.filter f (List.filter (fun x => negb (f x)) l) = [].
Proof.
  apply filter_nil_iff. intros x Hx. apply list_elem_of_In, List.filter_In in Hx as [_ Hx].
  by destruct (f x).
Qed.
End Filter.

(** ** The first hit of a search over a list *)

(** [first_some f l] is the first [f x] that is [Some], in the order of
    [l]: the loop of [caches.match] over the buckets and of
    [cache.match] over the entries. *)
Fixpoint first_some {A B} (f : A -> option B) (l : list A) : option B :=
  match l with
  | [] => None
  | x :: l' =>
      match f x with
      | Some b => Some b
      | None => first_some f l'
      end
  end.

Section FirstSome.
Context {A B : Type} (f : A -> option B).

Lemma first_some_None l : first_some f l = None <-> forall x, x ∈ l -> f x = None.
Proof.
  induction l as [|x l IH]; simpl.
  - split; [by intros _ ? ?%elem_of_nil | done].
  - destruct (f x) eqn:E; setoid_rewrite elem_of_cons.
    + split; [done|]. intros H. by rewrite H in E by auto.
    + rewrite IH. naive_solver.
Qed.

Lemma first_some_Some l b : first_some f l = Some b -> exists x, x ∈ l /\ f x = Some b.
Proof.
  induction l as [|x l IH]; simpl; [done|].
  destruct (f x) eqn:E; [intros [= <-]; exists x; by split; [left|]|].
  intros (y & ? & ?)%IH. exists y. split; [by right|done].
Qed.

Lemma first_some_app l1 l2 :
  first_some f (l1 ++ l2) = match first_some f l1 with Some b => Some b | None => first_some f l2 end.
Proof. induction l1 as [|x l1 IH]; simpl; [done|]. by destruct (f x). Qed.

(** When only [x] can answer, the search answers what [x] answers. *)
Lemma first_some_only `{!EqDecision A} l x :
  x ∈ l -> (forall y, y ∈ l -> y <> x -> f y = None) -> first_some f l = f x.
Proof.
  induction l as [|y l IH]; simpl; [by intros ?%elem_of_nil|].
  intros Hin Hothers. destruct (decide (y = x)) as [<-|Hne].
  { destruct (f y) eqn:E; [done|]. apply first_some_None. intros z Hz.
    destruct (decide (z = y)) as [->|]; [done|]. apply Hothers; [by right|done]. }
  rewrite (Hothers y) by (by left || done).
  apply IH; [by apply elem_of_cons in Hin as [?|?]|].
  intros z Hz. apply Hothers. by right.
Qed.
End FirstSome.

Lemma first_some_ext {A B} (f g : A -> option B) l :
  (forall x, x ∈ l -> f x = g x) -> first_some f l = first_some g l.
Proof.
  induction l as [|x l IH]; intros H; simpl; [done|].
  rewrite (H x) by by left. destruct (g x); [done|]. apply IH. intros y Hy. apply H. by right.
Qed.

(** ** A list updated at one index: the pool of running handlers *)

Section Insert.
Context {A : Type}.

Lemma elem_of_insert_inv (l : list A) i x y : x ∈ <[i:=y]> l -> x = y \/ x ∈ l.
Proof.
  revert i. induction l as [|z l IH]; intros [|i]; simpl; [by intros ?%elem_of_nil..| |].
  - rewrite !elem_of_cons. naive_solver.
  - rewrite !elem_of_cons. intros [->|Hx]; [by right; left|].
    destruct (IH i Hx); [by left | by right; right].
Qed.

(** Replacing the [i]-th element changes a sum by the difference. *)
Lemma sum_list_with_insert (f : A -> nat) (l : list A) i x y :
  l !! i = Some x -> sum_list_with f (<[i:=y]> l) + f x = sum_list_with f l + f y.
Proof.
  revert i. induction l as [|z l IH]; intros [|i]; simpl; [done..| |].
  - intros [= ->]. lia.
  - intros Hi. specialize (IH i Hi). lia.
Qed.

(** Updating the element just appended. *)
Lemma insert_app_last (l : list A) x y : <[length l := y]> (l ++ [x]) = l ++ [y].
Proof. rewrite <-(Nat.add_0_r (length l)), insert_app_r. done. Qed.

Lemma sum_list_with_le (f : A -> nat) (l : list A) k :
  (forall x, x ∈ l -> f x <= k) -> sum_list_with f l <= k * length l.
Proof.
  induction l as [|x l IH]; simpl; [lia|]. intros Hf.
  pose proof (Hf x ltac:(by left)).
  assert (sum_list_with f l <= k * length l) by (apply IH; intros; apply Hf; by right). lia.
Qed.
End Insert.

(** ** Tactics *)

(** Run the first stage of a [bind] whose outcome the lemma [H] gives
    as fulfilled. *)
Ltac bind_step H := erewrite bind_fulfilled by (by apply H).

(** A decidable proposition about a concrete value, by evaluation. *)
Ltac decide_by_compute := apply (bool_decide_unpack _); vm_compute; exact I.
