(* ===== verification/Http.v ===== *)
(** Requests, responses and URLs as the Fetch and Cache APIs see them:
    the data the worker's handlers pass to the host.  Holds the request
    matching of the Cache API (Query Cache, Request Matches Cached
    Item), the "ok status" test of [cache.addAll], and the resolution
    of the asset paths of sw.js (['./'], ['./index.html']) against the
    worker's location, which [cache.addAll] performs with
    [new Request(path)]. *)

From stdpp Require Import base list strings.
From Stdlib Require Import Ascii ZArith Lia.
From S2P Require Import Prelude.

(** ** Data *)

Inductive Method : Type :=
| GET | HEAD | POST | PUT | DELETE | PATCH | OPTIONS.

#[export] Instance Method_eq_dec : EqDecision Method.
Proof. solve_decision. Defined.

(** A parsed URL: [url_href] is the serialization up to the path
    ("https://host/app/index.html"), then the query and the fragment,
    each absent or a string. *)
Record Url : Type := mkUrl {
  url_href : string;
  url_query : option string;
  url_fragment : option string;
}.

#[export] Instance Url_eq_dec : EqDecision Url.
Proof. solve_decision. Defined.

Record Request : Type := mkRequest {
  req_url : Url;
  req_method : Method;
}.

#[export] Instance Request_eq_dec : EqDecision Request.
Proof. solve_decision. Defined.

Record Response : Type := mkResponse {
  resp_status : Z;
  resp_body : string;
}.

#[export] Instance Response_eq_dec : EqDecision Response.
Proof. solve_decision. Defined.

(** ** Request matching of the Cache API *)

(** URL equality with the "exclude fragments" flag set. *)
Definition url_equals_excl_fragment (a b : Url) : bool :=
  bool_decide (url_href a = url_href b) && bool_decide (url_query a = url_query b).

(** "Request Matches Cached Item" without [ignoreSearch] and without
    [Vary] headers: the URLs agree up to the fragment. *)
Definition request_matches (q cached : Request) : bool :=
  url_equals_excl_fragment (req_url q) (req_url cached).

(** "Query Cache" answers nothing for a request whose method is not
    [GET] unless [ignoreMethod] is set, which sw.js never does. *)
Definition query_applicable (q : Request) : bool :=
  bool_decide (req_method q = GET).

(** ** Responses *)

(** An ok status is in the range 200 to 299. *)
Definition is_ok_status (s : Z) : bool := (200 <=? s)%Z && (s <=? 299)%Z.

(** [cache.addAll] rejects a response whose status is not ok or is 206
    (partial content). *)
Definition add_all_acceptable (r : Response) : bool :=
  is_ok_status (resp_status r) && negb (resp_status r =? 206)%Z.

(** [cache.addAll] rejects a request whose scheme is not http(s). *)
Definition is_http_url (u : Url) : bool :=
  String.prefix "http:" (url_href u) || String.prefix "https:" (url_href u).

(** ** Resolution of the asset paths *)

(** The directory part of a URL: everything up to its last slash. *)
Fixpoint dir_of (s : string) : string :=
  match s with
  | EmptyString => EmptyString
  | String c rest =>
      let d := dir_of rest in
      if bool_decide (d = EmptyString) then
        (if bool_decide (c = "/"%char) then String c EmptyString else EmptyString)
      else String c d
  end.

(** A path that starts with "./" names a file of the base directory. *)
Definition strip_dot_slash (p : string) : string :=
  match p with
  | String "."%char (String "/"%char rest) => rest
  | _ => p
  end.

(** The URL of [new Request(p)] inside a worker whose script is at
    [loc], for the relative paths of the asset list. *)
Definition resolve_path (loc p : string) : Url :=
  {| url_href := dir_of loc +:+ strip_dot_slash p;
     url_query := None;
     url_fragment := None |}.

Definition request_of_path (loc p : string) : Request :=
  {| req_url := resolve_path loc p; req_method := GET |}.

(** The worker's directory is an http(s) URL. *)
Definition dir_is_http (loc : string) : bool :=
  String.prefix "http:" (dir_of loc) || String.prefix "https:" (dir_of loc).

(** ** Lemmas *)

Lemma request_matches_refl q : request_matches q q = true.
Proof. unfold request_matches, url_equals_excl_fragment. by rewrite !bool_decide_eq_true_2. Qed.

Lemma request_matches_true q r :
  request_matches q r = true <->
  url_href (req_url q) = url_href (req_url r) /\ url_query (req_url q) = url_query (req_url r).
Proof.
  unfold request_matches, url_equals_excl_fragment.
  by rewrite andb_true_iff, !bool_decide_eq_true.
Qed.

Lemma request_matches_sym q r : request_matches q r = request_matches r q.
Proof.
  apply Bool.eq_iff_eq_true. rewrite !request_matches_true. naive_solver.
Qed.

(** Matching is an equivalence on requests: two requests that match
    each other match the same cached requests. *)
Lemma request_matches_trans q q' r :
  request_matches q q' = true -> request_matches q r = request_matches q' r.
Proof.
  intros Hqq'. apply Bool.eq_iff_eq_true. rewrite !request_matches_true.
  apply request_matches_true in Hqq'. naive_solver congruence.
Qed.

(** Two asset paths match each other exactly when they name the same
    file of the worker's directory. *)
Lemma request_of_path_matches loc p p' :
  request_matches (request_of_path loc p) (request_of_path loc p') = true <->
  strip_dot_slash p = strip_dot_slash p'.
Proof.
  rewrite request_matches_true. simpl. split; [intros [H _] | intros ->; done].
  by apply (inj (String.append (dir_of loc))) in H.
Qed.

Lemma request_of_path_applicable loc p : query_applicable (request_of_path loc p) = true.
Proof. done. Qed.

Lemma prefix_app p s t : String.prefix p s = true -> String.prefix p (s +:+ t) = true.
Proof.
  revert s. induction p as [|a p IH]; intros [|b s]; simpl; try done.
  - by destruct t.
  - destruct (ascii_dec a b); [apply IH | done].
Qed.

Lemma resolve_path_http loc p : dir_is_http loc = true -> is_http_url (resolve_path loc p) = true.
Proof.
  unfold dir_is_http, is_http_url. simpl.
  intros [H|H]%orb_true_iff; apply orb_true_iff; [left|right]; by apply prefix_app.
Qed.

#[export] Hint Resolve request_matches_refl request_of_path_applicable : sw.
