(* ===== verification/HostApi.v ===== *)
(** The interface between the worker and its host.  [CacheHost] holds
    the four host operations sw.js calls ([caches.open],
    [cache.addAll], [caches.match], [fetch]) and observations of the
    host state (the buckets, what each answers to a request, the
    requests sent to the network, the network's answers).
    [CacheHostLaws] is what the host promises about them, from the
    Service Worker and Fetch standards; [Worker] is proved against these
    laws only, and [CacheStorage] proves that its implementation
    satisfies them.  [cache_equiv] (same buckets, same answers) is the
    equivalence on host states under which the cache reads are
    [Proper]. *)

From stdpp Require Import base list strings.
From Stdlib Require Import Morphisms.
From S2P Require Import Prelude Http.

Class CacheHost (W : Type) := {
  (** the Cache object [caches.open] fulfils with, and its bucket name *)
  CacheRef : Type;
  cache_name : CacheRef -> string;
  (** the operations the worker calls *)
  caches_open : string -> M W CacheRef;
  cache_addAll : CacheRef -> list string -> M W unit;
  caches_match : Request -> M W (option Response);
  fetch : Request -> M W Response;
  (** observations of the host state *)
  host_wf : W -> Prop;
  host_location : W -> string;
  bucket_names : W -> list string;
  bucket_match : W -> string -> Request -> option Response;
  network_log : W -> list Request;
  network_answer : W -> nat -> Request -> Settled Response;
}.

Section Derived.
Context {W : Type} `{!CacheHost W}.

(** What [caches.match] answers: the buckets in creation order, the
    first one that holds the request. *)
Definition storage_lookup (w : W) (q : Request) : option Response :=
  first_some (fun n => bucket_match w n q) (bucket_names w).

(** What the next network request answers. *)
Definition next_answer (w : W) (q : Request) : Settled Response :=
  network_answer w (length (network_log w)) q.

(** Two host states whose caches hold the same. *)
Record cache_equiv (w w' : W) : Prop := {
  ceq_names : bucket_names w = bucket_names w';
  ceq_match : forall n q, bucket_match w n q = bucket_match w' n q;
}.

(** Two host states with the same location and the same network. *)
Record same_env (w w' : W) : Prop := {
  env_location : host_location w' = host_location w;
  env_network : forall k q, network_answer w' k q = network_answer w k q;
}.
End Derived.

(** ** The outcome of [cache.addAll] *)

(** A response of the network that [cache.addAll] stores, or the reason
    it rejects. *)
Definition accept_for_cache (s : Settled Response) : Settled Response :=
  match s with
  | Fulfilled r => if add_all_acceptable r then Fulfilled r else Rejected TypeError
  | Rejected e => Rejected e
  | Pending => Pending
  end.

Lemma accept_for_cache_fulfilled s r :
  accept_for_cache s = Fulfilled r <-> s = Fulfilled r /\ add_all_acceptable r = true.
Proof.
  destruct s as [r'|e|]; simpl; [|naive_solver..].
  destruct (add_all_acceptable r') eqn:E; split; try naive_solver.
  intros [[= ->] ?]. congruence.
Qed.

(** No two requests of the batch match each other. *)
Fixpoint no_dup_match (l : list Request) : bool :=
  match l with
  | [] => true
  | q :: l' => forallb (fun q' => negb (request_matches q q')) l' && no_dup_match l'
  end.

Lemma no_dup_match_cons q l :
  no_dup_match (q :: l) = true <->
  (forall q', q' ∈ l -> request_matches q q' = false) /\ no_dup_match l = true.
Proof.
  simpl. rewrite andb_true_iff, forallb_forall.
  setoid_rewrite <-list_elem_of_In. by setoid_rewrite negb_true_iff.
Qed.

(** The outcome of [cache.addAll(paths)] in a worker at [loc] whose
    next network requests are numbered from [base]: a non-http URL is a
    [TypeError] before any request; then every request is sent, and the
    outcome is that of [Promise.all] over the checked responses; a batch
    with two matching requests is an [InvalidStateError]. *)
Definition add_all_outcome (loc : string) (answer : nat -> Request -> Settled Response)
    (base : nat) (paths : list string) : Settled unit :=
  let reqs := request_of_path loc <$> paths in
  if negb (forallb (fun q => is_http_url (req_url q)) reqs) then Rejected TypeError
  else
    match promise_all (imap (fun i q => accept_for_cache (answer (base + i) q)) reqs) with
    | Fulfilled _ => if no_dup_match reqs then Fulfilled tt else Rejected InvalidStateError
    | Rejected e => Rejected e
    | Pending => Pending
    end.

Section AddAllOutcome.
Context (loc : string) (base : nat) (ps : list string).

Lemma add_all_outcome_ext answer answer' :
  (forall k q, answer k q = answer' k q) ->
  add_all_outcome loc answer base ps = add_all_outcome loc answer' base ps.
Proof.
  intros Ha. unfold add_all_outcome.
  by erewrite (imap_ext (fun i q => accept_for_cache (answer (base + i) q))) by (intros; by rewrite Ha).
Qed.

Context (answer : nat -> Request -> Settled Response).

(** The answer checked for the [i]-th path. *)
Definition checked_answer (i : nat) (p : string) : Settled Response :=
  accept_for_cache (answer (base + i) (request_of_path loc p)).

Lemma elem_of_checked s :
  s ∈ imap (fun i q => accept_for_cache (answer (base + i) q)) (request_of_path loc <$> ps) <->
  exists i p, ps !! i = Some p /\ s = checked_answer i p.
Proof.
  rewrite elem_of_lookup_imap. unfold checked_answer. split.
  - intros (i & q & -> & Hq). apply list_lookup_fmap_Some in Hq as (p & -> & Hp). eauto.
  - intros (i & p & Hp & ->). exists i, (request_of_path loc p).
    split; [done|]. by rewrite list_lookup_fmap, Hp.
Qed.

Context (Hhttp : forallb (fun q => is_http_url (req_url q)) (request_of_path loc <$> ps) = true).

(** Every path answered with a storable response: [addAll] fulfils
    unless two paths name one file. *)
Lemma add_all_outcome_fulfilled :
  no_dup_match (request_of_path loc <$> ps) = true ->
  (forall i p, ps !! i = Some p -> exists r, checked_answer i p = Fulfilled r) ->
  add_all_outcome loc answer base ps = Fulfilled tt.
Proof.
  intros Hdup Hok. unfold add_all_outcome. rewrite Hhttp. simpl.
  destruct (all_fulfilled (imap (fun i q => accept_for_cache (answer (base + i) q))
                                (request_of_path loc <$> ps))) as [rs ->].
  { intros s (i & p & Hp & ->)%elem_of_checked. by apply (Hok i p). }
  by rewrite promise_all_fmap, Hdup.
Qed.

(** One path answered with a failure or a response [addAll] refuses:
    [addAll] rejects. *)
Lemma add_all_outcome_rejected i p :
  ps !! i = Some p -> is_rejected (checked_answer i p) = true ->
  exists e, add_all_outcome loc answer base ps = Rejected e.
Proof.
  intros Hp Hrej. unfold add_all_outcome. rewrite Hhttp. simpl.
  destruct (promise_all_rejected (imap (fun i q => accept_for_cache (answer (base + i) q))
                                       (request_of_path loc <$> ps))) as [e ->]; [|by eauto].
  apply existsb_elem_of. exists (checked_answer i p). split; [|done].
  apply elem_of_checked. eauto.
Qed.

(** No path refused and one never answered: [addAll] never settles. *)
Lemma add_all_outcome_pending i p :
  ps !! i = Some p -> checked_answer i p = Pending ->
  (forall j p', ps !! j = Some p' -> is_rejected (checked_answer j p') = false) ->
  add_all_outcome loc answer base ps = Pending.
Proof.
  intros Hp Hpend Hnone. unfold add_all_outcome. rewrite Hhttp. simpl.
  rewrite promise_all_pending; [done| |].
  - apply not_true_iff_false. intros (s & (j & p' & Hp' & ->)%elem_of_checked & Hs)%existsb_elem_of.
    by rewrite Hnone in Hs.
  - rewrite <-Hpend. apply elem_of_checked. eauto.
Qed.
End AddAllOutcome.

(** ** The laws of the host *)

Class CacheHostLaws (W : Type) `{!CacheHost W} := {
  (** a bucket that does not exist answers nothing *)
  bucket_match_absent w n q :
    host_wf w -> n ∉ bucket_names w -> bucket_match w n q = None;
  (** Query Cache answers nothing to a request that is not [GET] *)
  bucket_match_non_get w n q :
    query_applicable q = false -> bucket_match w n q = None;
  (** two requests with one method and one URL up to the fragment are
      answered alike *)
  bucket_match_compat w n q q' :
    req_method q = req_method q' -> request_matches q q' = true ->
    bucket_match w n q = bucket_match w n q';

  (** [caches.open(n)] fulfils with the bucket [n], created empty after
      the others when it is absent; nothing else changes *)
  open_spec w n :
    host_wf w ->
    exists c w', caches_open n w = (Fulfilled c, w') /\ cache_name c = n /\ host_wf w' /\
      bucket_names w' =
        (if bool_decide (n ∈ bucket_names w) then bucket_names w else bucket_names w ++ [n]) /\
      (forall n' q, bucket_match w' n' q = bucket_match w n' q) /\
      network_log w' = network_log w /\ same_env w w';

  (** [cache.addAll] only writes its own bucket and only appends to the
      network log, at most one request per path *)
  add_all_frame w c ps s w' :
    host_wf w -> cache_addAll c ps w = (s, w') ->
    host_wf w' /\ bucket_names w' = bucket_names w /\ same_env w w' /\
    (exists sent, network_log w' = network_log w ++ sent /\ length sent <= length ps) /\
    (forall n q, n <> cache_name c -> bucket_match w' n q = bucket_match w n q);
  (** its outcome *)
  add_all_outcome_spec w c ps :
    host_wf w -> cache_name c ∈ bucket_names w ->
    fst (cache_addAll c ps w) =
      add_all_outcome (host_location w) (network_answer w) (length (network_log w)) ps;
  (** on fulfilment every path was requested once and its response is
      stored in the bucket *)
  add_all_fulfilled w c ps w' :
    host_wf w -> cache_name c ∈ bucket_names w ->
    cache_addAll c ps w = (Fulfilled tt, w') ->
    network_log w' = network_log w ++ (request_of_path (host_location w) <$> ps) /\
    forall i p, ps !! i = Some p ->
      exists r, network_answer w (length (network_log w) + i) (request_of_path (host_location w) p)
                  = Fulfilled r /\
                add_all_acceptable r = true /\
                bucket_match w' (cache_name c) (request_of_path (host_location w) p) = Some r;
  (** on fulfilment the bucket answers differently only to requests
      that match a path, and these find the response stored for it *)
  add_all_fulfilled_answers w c ps w' q :
    host_wf w -> cache_name c ∈ bucket_names w ->
    cache_addAll c ps w = (Fulfilled tt, w') ->
    bucket_match w' (cache_name c) q = bucket_match w (cache_name c) q \/
    exists i p r, ps !! i = Some p /\
      request_matches q (request_of_path (host_location w) p) = true /\
      network_answer w (length (network_log w) + i) (request_of_path (host_location w) p)
        = Fulfilled r /\
      add_all_acceptable r = true /\ bucket_match w' (cache_name c) q = Some r;
  (** otherwise nothing of the batch is stored *)
  add_all_not_fulfilled w c ps s w' :
    host_wf w -> cache_addAll c ps w = (s, w') -> (forall u, s <> Fulfilled u) ->
    cache_equiv w w';

  (** [caches.match] reads and fulfils with the first bucket's answer *)
  match_spec w q :
    host_wf w -> caches_match q w = (Fulfilled (storage_lookup w q), w);

  (** [fetch] sends one request and settles with the network's answer *)
  fetch_spec w q :
    host_wf w ->
    exists w', fetch q w = (next_answer w q, w') /\ host_wf w' /\ cache_equiv w w' /\
      network_log w' = network_log w ++ [q] /\ same_env w w';
}.

(** ** [cache_equiv] is an equivalence that the reads respect *)

Section Equiv.
Context {W : Type} `{!CacheHost W}.

#[export] Instance cache_equiv_equiv : Equivalence (@cache_equiv W _).
Proof.
  split.
  - intros w. by split.
  - intros w w' [H1 H2]. split; congruence.
  - intros w1 w2 w3 [H1 H2] [H3 H4]. split; congruence.
Qed.

#[export] Instance storage_lookup_proper :
  Proper (cache_equiv ==> eq ==> eq) (@storage_lookup W _).
Proof.
  intros w w' [Hn Hm] q ? <-. unfold storage_lookup. rewrite <-Hn.
  apply first_some_ext. intros n _. apply Hm.
Qed.

#[export] Instance same_env_equiv : Equivalence (@same_env W _).
Proof.
  split.
  - intros w. by split.
  - intros w w' [H1 H2]. split; [done|]. intros. by rewrite H2.
  - intros w1 w2 w3 [H1 H2] [H3 H4]. split; [congruence|]. intros. by rewrite H4, H2.
Qed.
End Equiv.

(** ** Consequences of the laws *)

Section Consequences.
Context {W : Type} `{CacheHostLaws W}.

(** A bucket that answers must exist. *)
Lemma bucket_match_Some_in w n q r :
  host_wf w -> bucket_match w n q = Some r -> n ∈ bucket_names w.
Proof.
  intros Hwf Hm. destruct (decide (n ∈ bucket_names w)) as [?|Hn]; [done|].
  by rewrite bucket_match_absent in Hm.
Qed.
End Consequences.

#[export] Hint Resolve bucket_match_Some_in : sw.

Section Lookup.
Context {W : Type} `{CacheHostLaws W}.

(** When the bucket [n] is the only one that holds [q], [caches.match]
    answers what [n] answers. *)
Lemma storage_lookup_only w n q :
  host_wf w -> (forall n', n' <> n -> bucket_match w n' q = None) ->
  storage_lookup w q = bucket_match w n q.
Proof.
  intros Hwf Hothers. unfold storage_lookup.
  destruct (decide (n ∈ bucket_names w)) as [Hin|Hn].
  - apply (first_some_only (fun n => bucket_match w n q)); [done|].
    intros n' _ Hne. by apply Hothers.
  - rewrite bucket_match_absent by done. apply first_some_None.
    intros n' _. destruct (decide (n' = n)) as [->|Hne]; [|by apply Hothers].
    by apply bucket_match_absent.
Qed.

(** A bucket that answers makes [caches.match] answer. *)
Lemma storage_lookup_of_bucket w n q r :
  host_wf w -> bucket_match w n q = Some r -> storage_lookup w q <> None.
Proof.
  intros Hwf Hm Hnone. apply first_some_None with (x := n) in Hnone; [congruence|].
  eauto with sw.
Qed.

(** Opening a bucket changes no answer of the cache. *)
Lemma open_storage_lookup w n c w' q :
  host_wf w -> caches_open n w = (Fulfilled c, w') -> storage_lookup w' q = storage_lookup w q.
Proof.
  intros Hwf Hopen.
  destruct (open_spec w n Hwf) as (c' & w'' & Hopen' & _ & _ & Hnames & Hm & _).
  rewrite Hopen in Hopen'. simplify_eq. unfold storage_lookup. rewrite Hnames.
  case_bool_decide.
  - apply first_some_ext. intros. apply Hm.
  - rewrite first_some_app. simpl. rewrite Hm, (bucket_match_absent w n) by done.
    erewrite first_some_ext by (intros; apply Hm). by destruct (first_some _ _).
Qed.
End Lookup.

