(* ===== verification/CacheStorage.v ===== *)
(** The host implemented concretely, from the Service Worker standard
    (CacheStorage, Cache) and the Fetch standard, and its proof that it
    satisfies the interface [CacheHostLaws].

    - The state [World] holds the worker's location ([self.location]),
      the CacheStorage's name-to-cache map as a list of named buckets in
      creation order, the requests sent to the network, and the network
      itself: an oracle [w_net k q] telling what the [k]-th request sent
      by the worker, [q], meets (a response, a network error, or no
      answer ever).
    - A bucket is its request response list, in insertion order.
    - [query_cache], [cache_match], [batch_put] follow "Query Cache",
      [Cache.match] and "Batch Cache Operations" (put only);
      [storage_add_all] follows [Cache.addAll]; [storage_match] follows
      [CacheStorage.match] without a [cacheName]; [storage_open]
      follows [CacheStorage.open]; [storage_fetch] is [fetch].
    - A Cache object is the name of its bucket; a write through an
      object whose bucket no longer exists reaches no bucket. *)

From stdpp Require Import base list strings.
From S2P Require Import Prelude Http HostApi.

(** ** State *)

Inductive NetOutcome : Type :=
| NetResponse (r : Response)
| NetFailure
| NetHang.

Definition Network : Type := nat -> Request -> NetOutcome.

Definition Cache : Type := list (Request * Response).

Record World : Type := mkWorld {
  w_location : string;
  w_caches : list (string * Cache);
  w_log : list Request;
  w_net : Network;
}.

Definition with_caches (w : World) (cs : list (string * Cache)) : World :=
  {| w_location := w_location w; w_caches := cs; w_log := w_log w; w_net := w_net w |}.

Definition with_log (w : World) (log : list Request) : World :=
  {| w_location := w_location w; w_caches := w_caches w; w_log := log; w_net := w_net w |}.

(** A response settles [fetch]; a network error rejects it with a
    [TypeError]; no answer leaves it pending. *)
Definition net_settle (o : NetOutcome) : Settled Response :=
  match o with
  | NetResponse r => Fulfilled r
  | NetFailure => Rejected TypeError
  | NetHang => Pending
  end.

(** The name-to-cache map has one entry per name. *)
Definition world_wf (w : World) : Prop := NoDup (w_caches w).*1.

#[export] Instance world_wf_dec w : Decision (world_wf w).
Proof. unfold world_wf. apply _. Defined.

(** ** Buckets *)

(** Query Cache: the entries whose request matches [q], none when [q]
    is not a [GET]. *)
Definition query_cache (q : Request) (c : Cache) : Cache :=
  if query_applicable q then List.filter (fun e => request_matches q e.1) c else [].

(** [Cache.match]: the response of the first entry Query Cache finds. *)
Definition cache_match (q : Request) (c : Cache) : option Response :=
  match query_cache q c with
  | (_, r) :: _ => Some r
  | [] => None
  end.

(** The entries a put of [q] removes are those Query Cache finds. *)
Definition cache_delete_matching (q : Request) (c : Cache) : Cache :=
  if query_applicable q then List.filter (fun e => negb (request_matches q e.1)) c else c.

Fixpoint bucket_of (cs : list (string * Cache)) (n : string) : option Cache :=
  match cs with
  | [] => None
  | (m, c) :: cs' => if bool_decide (m = n) then Some c else bucket_of cs' n
  end.

(** Replace the bucket named [n]; nothing changes when there is none. *)
Definition update_bucket (n : string) (c' : Cache) (cs : list (string * Cache))
    : list (string * Cache) :=
  (fun e => if bool_decide (e.1 = n) then (e.1, c') else e) <$> cs.

Definition world_bucket_match (w : World) (n : string) (q : Request) : option Response :=
  match bucket_of (w_caches w) n with
  | Some c => cache_match q c
  | None => None
  end.

(** ** Operations *)

(** [caches.open(n)]: the bucket [n], appended empty when absent. *)
Definition storage_open (n : string) : M World string := fun w =>
  match bucket_of (w_caches w) n with
  | Some _ => (Fulfilled n, w)
  | None => (Fulfilled n, with_caches w (w_caches w ++ [(n, [])]))
  end.

(** Batch Cache Operations with put operations: a request that matches
    one put earlier in the batch is an [InvalidStateError]; otherwise
    the entries matching the request are removed and the new entry is
    appended.  The whole batch is applied to a copy of the bucket, which
    replaces it only on success. *)
Fixpoint batch_put (added : Cache) (ops : list (Request * Response)) (c : Cache)
    : Settled Cache :=
  match ops with
  | [] => Fulfilled c
  | (q, r) :: ops' =>
      if bool_decide (query_cache q added <> []) then Rejected InvalidStateError
      else batch_put (added ++ [(q, r)]) ops' (cache_delete_matching q c ++ [(q, r)])
  end.

(** [cache.addAll(paths)] on the bucket [n]: every path becomes a [GET]
    request relative to the worker's location; a non-http URL rejects
    with a [TypeError] before any request is sent; then every request
    is sent; the responses are checked ([accept_for_cache]) and joined
    with [Promise.all]; on fulfilment the batch of puts is committed. *)
Definition storage_add_all (n : string) (paths : list string) : M World unit := fun w =>
  let reqs := request_of_path (w_location w) <$> paths in
  if negb (forallb (fun q => is_http_url (req_url q)) reqs) then (Rejected TypeError, w)
  else
    let base := length (w_log w) in
    let w1 := with_log w (w_log w ++ reqs) in
    match promise_all (imap (fun i q => accept_for_cache (net_settle (w_net w (base + i) q))) reqs) with
    | Rejected e => (Rejected e, w1)
    | Pending => (Pending, w1)
    | Fulfilled resps =>
        match batch_put [] (zip reqs resps) (default [] (bucket_of (w_caches w) n)) with
        | Fulfilled c' => (Fulfilled tt, with_caches w1 (update_bucket n c' (w_caches w)))
        | Rejected e => (Rejected e, w1)
        | Pending => (Pending, w1)
        end
    end.

(** [caches.match(q)]: the buckets in order, the first that answers. *)
Definition storage_match (q : Request) : M World (option Response) := fun w =>
  (Fulfilled (first_some (fun e => cache_match q e.2) (w_caches w)), w).

(** [fetch(q)]: one more request sent; the network's answer. *)
Definition storage_fetch (q : Request) : M World Response := fun w =>
  (net_settle (w_net w (length (w_log w)) q), with_log w (w_log w ++ [q])).

#[export] Instance world_host : CacheHost World := {|
  CacheRef := string;
  cache_name n := n;
  caches_open := storage_open;
  cache_addAll := storage_add_all;
  caches_match := storage_match;
  fetch := storage_fetch;
  host_wf := world_wf;
  host_location := w_location;
  bucket_names w := (w_caches w).*1;
  bucket_match := world_bucket_match;
  network_log := w_log;
  network_answer w k q := net_settle (w_net w k q);
|}.

(** ** Lemmas on buckets *)

Lemma bucket_of_None cs n : n ∉ cs.*1 -> bucket_of cs n = None.
Proof.
  induction cs as [|[m c] cs IH]; simpl; [done|]. rewrite not_elem_of_cons.
  intros [Hne Hn]. rewrite bool_decide_eq_false_2 by congruence. by apply IH.
Qed.

Lemma bucket_of_Some_in cs n c : bucket_of cs n = Some c -> n ∈ cs.*1.
Proof.
  induction cs as [|[m c'] cs IH]; simpl; [done|]. rewrite elem_of_cons.
  case_bool_decide; [by left | intros; right; auto].
Qed.

Lemma bucket_of_in cs n : n ∈ cs.*1 -> exists c, bucket_of cs n = Some c.
Proof.
  induction cs as [|[m c'] cs IH]; simpl; [by intros ?%elem_of_nil|]. rewrite elem_of_cons.
  case_bool_decide; [by eauto|]. intros [->|?]; [done | auto].
Qed.

Lemma bucket_of_app cs cs' n :
  bucket_of (cs ++ cs') n = match bucket_of cs n with Some c => Some c | None => bucket_of cs' n end.
Proof. induction cs as [|[m c] cs IH]; simpl; [done|]. by case_bool_decide. Qed.

Lemma update_bucket_names n c' cs : (update_bucket n c' cs).*1 = cs.*1.
Proof.
  unfold update_bucket. rewrite <-list_fmap_compose. apply list_fmap_ext.
  intros _ [m c] _. simpl. by case_bool_decide.
Qed.

Lemma bucket_of_update_eq n c' cs : n ∈ cs.*1 -> bucket_of (update_bucket n c' cs) n = Some c'.
Proof.
  induction cs as [|[m c] cs IH]; simpl; [by intros ?%elem_of_nil|].
  rewrite elem_of_cons. case_bool_decide as Hm; simpl; [by rewrite bool_decide_eq_true_2|].
  rewrite bool_decide_eq_false_2 by done. intros [->|?]; [done | auto].
Qed.

Lemma bucket_of_update_ne n m c' cs :
  m <> n -> bucket_of (update_bucket n c' cs) m = bucket_of cs m.
Proof.
  intros Hne. induction cs as [|[k c] cs IH]; simpl; [done|].
  case_bool_decide as Hk; simpl; [subst k; by rewrite !bool_decide_eq_false_2 by congruence|].
  by case_bool_decide.
Qed.

Lemma world_bucket_match_absent w n q :
  n ∉ (w_caches w).*1 -> world_bucket_match w n q = None.
Proof. intros Hn. unfold world_bucket_match. by rewrite bucket_of_None. Qed.

(** ** Lemmas on Query Cache *)

Lemma cache_match_nil q : cache_match q [] = None.
Proof. unfold cache_match, query_cache. by destruct (query_applicable q). Qed.

Lemma query_cache_nil_iff q c :
  query_applicable q = true ->
  query_cache q c = [] <-> forall e, e ∈ c -> request_matches q e.1 = false.
Proof. intros Hq. unfold query_cache. rewrite Hq. apply filter_nil_iff. Qed.

Lemma query_cache_compat q q' c :
  req_method q = req_method q' -> request_matches q q' = true -> query_cache q c = query_cache q' c.
Proof.
  intros Hm Hqq'. unfold query_cache, query_applicable. rewrite Hm.
  case_bool_decide; [|done]. apply filter_ext. intros e. by apply request_matches_trans.
Qed.

(** A put of [q] leaves what a request [a] that does not match [q]
    finds. *)
Lemma query_cache_put_other a q r c :
  query_applicable q = true -> request_matches a q = false ->
  query_cache a (cache_delete_matching q c ++ [(q, r)]) = query_cache a c.
Proof.
  intros Hq Haq. unfold query_cache, cache_delete_matching. rewrite Hq.
  destruct (query_applicable a); [|done].
  rewrite List.filter_app. simpl. rewrite Haq, app_nil_r.
  apply filter_filter_stronger. intros [k v] Hak. simpl in *. apply negb_true_iff.
  rewrite request_matches_sym, <-(request_matches_trans a k q) by done.
  by rewrite Haq.
Qed.

(** After a put of [q], [q] finds exactly the new entry. *)
Lemma query_cache_put_self q r c :
  query_applicable q = true ->
  query_cache q (cache_delete_matching q c ++ [(q, r)]) = [(q, r)].
Proof.
  intros Hq. unfold query_cache, cache_delete_matching. rewrite Hq, List.filter_app.
  rewrite filter_filter_negb. simpl. by rewrite request_matches_refl.
Qed.

Lemma cache_match_compat q q' c :
  req_method q = req_method q' -> request_matches q q' = true -> cache_match q c = cache_match q' c.
Proof. intros. unfold cache_match. by rewrite (query_cache_compat q q'). Qed.

Lemma world_bucket_match_compat w n q q' :
  req_method q = req_method q' -> request_matches q q' = true ->
  world_bucket_match w n q = world_bucket_match w n q'.
Proof.
  intros Hm Hqq'. unfold world_bucket_match.
  destruct (bucket_of _ _); [by apply cache_match_compat | done].
Qed.

Lemma world_bucket_match_non_get w n q :
  query_applicable q = false -> world_bucket_match w n q = None.
Proof.
  intros Hq. unfold world_bucket_match, cache_match, query_cache.
  rewrite Hq. by destruct (bucket_of _ _).
Qed.

(** ** Lemmas on the batch of puts *)

Lemma batch_put_not_pending added ops c : batch_put added ops c <> Pending.
Proof.
  revert added c. induction ops as [|[q r] ops IH]; intros added c; simpl; [done|].
  case_bool_decide; [done | apply IH].
Qed.

Lemma batch_put_rejected added ops c e :
  batch_put added ops c = Rejected e -> e = InvalidStateError.
Proof.
  revert added c. induction ops as [|[q r] ops IH]; intros added c; simpl; [done|].
  case_bool_decide; [congruence | apply IH].
Qed.

Section BatchPut.
(** Every request of the batch is a [GET], as those of [addAll] are. *)
Context (ops : list (Request * Response)).
Context (Hget : forall o, o ∈ ops -> query_applicable o.1 = true).

(** The batch is committed exactly when no request of it matches an
    earlier one, in the batch or among [added]. *)
Lemma batch_put_fulfilled_iff added c :
  (exists c', batch_put added ops c = Fulfilled c') <->
  (forall o e, o ∈ ops -> e ∈ added -> request_matches o.1 e.1 = false) /\
  no_dup_match ops.*1 = true.
Proof.
  revert Hget added c. induction ops as [|[q r] ops' IH]; intros Hget' added c; cbn [batch_put].
  { split; [intros _; split; [by intros ? ? ?%elem_of_nil | done] | eauto]. }
  assert (query_applicable q = true) as Hq by (apply (Hget' (q, r)); by left).
  rewrite fmap_cons, no_dup_match_cons. cbn [fst]. setoid_rewrite elem_of_cons.
  case_bool_decide as Hdup.
  - split; [by intros [? ?]|]. intros [Hfresh _]. exfalso. apply Hdup, query_cache_nil_iff; [done|].
    intros e He. by apply (Hfresh (q, r)); [left|].
  - rewrite IH by (intros o Ho; apply Hget'; by right).
    rewrite query_cache_nil_iff in Hdup by done.
    setoid_rewrite elem_of_app. setoid_rewrite list_elem_of_singleton.
    setoid_rewrite list_elem_of_fmap.
    split.
    + intros [Hfresh Hnd]. split_and!; [|intros q' ([q'' r''] & -> & Ho) | done].
      * intros o e [->|Ho] He; [by apply Hdup|]. apply Hfresh; [done | by left].
      * simpl. rewrite request_matches_sym. by apply (Hfresh (q'', r'') (q, r)); [|right].
    + intros [Hfresh [Hq' Hnd]]. split; [|done].
      intros o e Ho [He | ->]; [apply Hfresh; [by right | done]|].
      simpl. rewrite request_matches_sym. apply Hq'. by exists o.
Qed.

(** After the batch, every put request finds its response, and so do
    the requests put before it in [added]. *)
Lemma batch_put_stores added c c' :
  batch_put added ops c = Fulfilled c' ->
  (forall e, e ∈ added -> query_applicable e.1 = true /\ cache_match e.1 c = Some e.2) ->
  forall e, e ∈ added ++ ops -> cache_match e.1 c' = Some e.2.
Proof.
  revert Hget added c. induction ops as [|[q r] ops' IH]; intros Hget' added c; simpl.
  { intros [= ->] Hadded e. rewrite app_nil_r. apply Hadded. }
  assert (query_applicable q = true) as Hq by (apply (Hget' (q, r)); by left).
  case_bool_decide as Hdup; [done|]. intros Hrun Hadded e He.
  rewrite query_cache_nil_iff in Hdup by done.
  rewrite cons_middle, app_assoc in He.
  apply (IH (fun o Ho => Hget' o (proj2 (elem_of_cons _ _ _) (or_intror Ho))) _ _ Hrun); [|done].
  intros [k v] [Hk | ->%list_elem_of_singleton]%elem_of_app; simpl.
  - destruct (Hadded (k, v) Hk) as [Hka Hkm]. split; [done|].
    unfold cache_match in *. rewrite query_cache_put_other; [done | done |].
    rewrite request_matches_sym. apply (Hdup (k, v) Hk).
  - split; [done|]. unfold cache_match. by rewrite query_cache_put_self.
Qed.
(** A request that matches no request of the batch finds what it found
    before. *)
Lemma batch_put_others added c c' a :
  batch_put added ops c = Fulfilled c' ->
  (forall o, o ∈ ops -> request_matches a o.1 = false) ->
  query_cache a c' = query_cache a c.
Proof.
  revert Hget added c. induction ops as [|[q r] ops' IH]; intros Hget' added c; simpl.
  { by intros [= ->]. }
  assert (query_applicable q = true) as Hq by (apply (Hget' (q, r)); by left).
  case_bool_decide; [done|]. intros Hrun Hnone.
  rewrite (IH (fun o Ho => Hget' o (proj2 (elem_of_cons _ _ _) (or_intror Ho))) _ _ Hrun)
    by (intros o Ho; apply Hnone; by right).
  apply query_cache_put_other; [done|]. apply (Hnone (q, r)). by left.
Qed.
End BatchPut.

(** ** The operations against the laws *)

(** [caches.match] over the entries is the search over the names, since
    the names are distinct. *)
Lemma storage_match_first cs q :
  NoDup cs.*1 ->
  first_some (fun e => cache_match q e.2) cs =
  first_some (fun n => match bucket_of cs n with Some c => cache_match q c | None => None end) cs.*1.
Proof.
  induction cs as [|[m c] cs IH]; simpl; [done|]. intros [Hm Hnd]%NoDup_cons.
  rewrite bool_decide_eq_true_2 by done. destruct (cache_match q c); [done|].
  rewrite IH by done. apply first_some_ext. intros n Hn.
  rewrite bool_decide_eq_false_2; [done|]. by intros ->.
Qed.

Lemma storage_open_spec w n :
  world_wf w ->
  exists w', storage_open n w = (Fulfilled n, w') /\ world_wf w' /\
    (w_caches w').*1 =
      (if bool_decide (n ∈ (w_caches w).*1) then (w_caches w).*1 else (w_caches w).*1 ++ [n]) /\
    (forall n' q, world_bucket_match w' n' q = world_bucket_match w n' q) /\
    w_log w' = w_log w /\ w_location w' = w_location w /\ w_net w' = w_net w.
Proof.
  intros Hwf. unfold storage_open.
  destruct (bucket_of (w_caches w) n) as [c|] eqn:E.
  - exists w. rewrite bool_decide_eq_true_2 by (by eapply bucket_of_Some_in). by split_and!.
  - assert (n ∉ (w_caches w).*1) as Hn by (intros [c Hc]%bucket_of_in; congruence).
    exists (with_caches w (w_caches w ++ [(n, [])])). rewrite bool_decide_eq_false_2 by done.
    unfold world_wf, world_bucket_match in *. simpl. rewrite fmap_app. split_and!; try done.
    + apply NoDup_app. split_and!; [done | | apply NoDup_singleton].
      by intros x Hx ->%list_elem_of_singleton.
    + intros n' q. rewrite bucket_of_app. destruct (bucket_of (w_caches w) n') eqn:E'; [done|].
      simpl. case_bool_decide; [apply cache_match_nil | done].
Qed.

(** The requests of [addAll] are [GET]s. *)
Lemma zip_requests_get loc ps (resps : list Response) o :
  o ∈ zip (request_of_path loc <$> ps) resps -> query_applicable o.1 = true.
Proof.
  intros [i Hi]%list_elem_of_lookup. destruct o as [q r].
  apply lookup_zip_Some in Hi as [Hq _]. by apply list_lookup_fmap_Some in Hq as (p & -> & _).
Qed.

Lemma storage_add_all_frame w n ps s w' :
  world_wf w -> storage_add_all n ps w = (s, w') ->
  world_wf w' /\ (w_caches w').*1 = (w_caches w).*1 /\
  w_location w' = w_location w /\ w_net w' = w_net w /\
  (exists sent, w_log w' = w_log w ++ sent /\ length sent <= length ps) /\
  (forall m q, m <> n -> world_bucket_match w' m q = world_bucket_match w m q).
Proof.
  intros Hwf. unfold storage_add_all, world_wf, world_bucket_match in *.
  destruct (forallb _ _); simpl.
  2:{ intros [= <- <-]. split_and!; try done. exists []. split; [by rewrite app_nil_r | simpl; lia]. }
  destruct (promise_all (imap _ _)) as [resps|e|];
    [destruct (batch_put _ _ _) as [c'|e|]|..]; intros [= <- <-]; simpl;
    rewrite ?update_bucket_names; split_and!; try done;
    try (eexists; split; [done | by rewrite length_fmap]).
  intros m q Hm. by rewrite bucket_of_update_ne.
Qed.

Lemma storage_add_all_not_fulfilled w n ps s w' :
  storage_add_all n ps w = (s, w') -> (forall u, s <> Fulfilled u) -> w_caches w' = w_caches w.
Proof.
  unfold storage_add_all. destruct (forallb _ _); simpl; [|by intros [= <- <-]].
  destruct (promise_all (imap _ _)) as [resps|e|];
    [destruct (batch_put _ _ _) as [c'|e|]|..]; intros [= <- <-] Hs; try done.
  by destruct (Hs tt).
Qed.

Lemma storage_add_all_outcome w n ps :
  fst (storage_add_all n ps w) =
    add_all_outcome (w_location w) (fun k q => net_settle (w_net w k q)) (length (w_log w)) ps.
Proof.
  unfold storage_add_all, add_all_outcome.
  destruct (forallb _ _); simpl; [|done].
  destruct (promise_all (imap _ _)) as [resps|e|] eqn:Hall; simpl; try done.
  apply promise_all_fulfilled in Hall.
  assert ((zip (request_of_path (w_location w) <$> ps) resps).*1 = request_of_path (w_location w) <$> ps)
    as Hfst.
  { apply fst_zip. apply (f_equal length) in Hall.
    rewrite ?length_imap, ?length_fmap, ?length_map in *. lia. }
  pose proof (batch_put_fulfilled_iff _ (zip_requests_get (w_location w) ps resps) []
                (default [] (bucket_of (w_caches w) n))) as Hiff.
  rewrite Hfst in Hiff.
  destruct (batch_put _ _ _) as [c'|e|] eqn:Hb; simpl.
  - destruct Hiff as [[_ ->] _]; by eauto.
  - rewrite (batch_put_rejected _ _ _ _ Hb). destruct (no_dup_match _); [|done].
    destruct Hiff as [_ [c' ?]]; [|congruence]. split; [by intros ? ? _ ?%elem_of_nil | done].
  - by apply batch_put_not_pending in Hb.
Qed.

Lemma storage_add_all_fulfilled w n ps w' :
  n ∈ (w_caches w).*1 -> storage_add_all n ps w = (Fulfilled tt, w') ->
  w_log w' = w_log w ++ (request_of_path (w_location w) <$> ps) /\
  forall i p, ps !! i = Some p ->
    exists r, net_settle (w_net w (length (w_log w) + i) (request_of_path (w_location w) p))
                = Fulfilled r /\
              add_all_acceptable r = true /\
              world_bucket_match w' n (request_of_path (w_location w) p) = Some r.
Proof.
  intros Hn. unfold storage_add_all.
  destruct (forallb _ _); simpl; [|done].
  destruct (promise_all (imap _ _)) as [resps|e|] eqn:Hall; try done.
  destruct (batch_put _ _ _) as [c'|e|] eqn:Hb; try done. intros [= <-]. simpl. split; [done|].
  intros i p Hp. apply promise_all_fulfilled in Hall.
  pose proof (f_equal (fun l => l !! i) Hall) as Hi. simpl in Hi.
  rewrite list_lookup_imap, list_lookup_fmap, Hp, list_lookup_fmap in Hi. simpl in Hi.
  destruct (resps !! i) as [r|] eqn:Hr; simplify_eq/=.
  apply accept_for_cache_fulfilled in Hi as [Hnet Hacc]. exists r. split_and!; [done..|].
  unfold world_bucket_match. simpl. rewrite bucket_of_update_eq by done.
  apply (batch_put_stores _ (zip_requests_get (w_location w) ps resps) [] _ c' Hb
           ltac:(by intros ? ?%elem_of_nil) (request_of_path (w_location w) p, r)).
  simpl. apply list_elem_of_lookup. exists i. apply lookup_zip_Some.
  by rewrite list_lookup_fmap, Hp.
Qed.

(** A fulfilled [addAll] leaves what a request matching none of its
    paths finds. *)
Lemma storage_add_all_others w n ps w' q :
  n ∈ (w_caches w).*1 -> storage_add_all n ps w = (Fulfilled tt, w') ->
  (forall p, p ∈ ps -> request_matches q (request_of_path (w_location w) p) = false) ->
  world_bucket_match w' n q = world_bucket_match w n q.
Proof.
  intros Hn. unfold storage_add_all.
  destruct (forallb _ _); simpl; [|done].
  destruct (promise_all (imap _ _)) as [resps|e|]; try done.
  destruct (batch_put _ _ _) as [c'|e|] eqn:Hb; try done. intros [= <-] Hnone.
  unfold world_bucket_match. simpl. rewrite bucket_of_update_eq by done.
  destruct (bucket_of_in _ _ Hn) as [c Hc]. rewrite Hc in Hb |- *. simpl in Hb.
  unfold cache_match. rewrite (batch_put_others _ (zip_requests_get (w_location w) ps resps) [] c c' q Hb);
    [done|].
  intros [k v] [i Hi]%list_elem_of_lookup. apply lookup_zip_Some in Hi as [Hk _].
  apply list_lookup_fmap_Some in Hk as (p & -> & Hp). apply Hnone. by eapply list_elem_of_lookup_2.
Qed.

(** What a fulfilled [addAll] changed in its bucket. *)
Lemma storage_add_all_answers w n ps w' q :
  n ∈ (w_caches w).*1 -> storage_add_all n ps w = (Fulfilled tt, w') ->
  world_bucket_match w' n q = world_bucket_match w n q \/
  exists i p r, ps !! i = Some p /\ request_matches q (request_of_path (w_location w) p) = true /\
    net_settle (w_net w (length (w_log w) + i) (request_of_path (w_location w) p)) = Fulfilled r /\
    add_all_acceptable r = true /\ world_bucket_match w' n q = Some r.
Proof.
  intros Hn Hrun. destruct (query_applicable q) eqn:Hq.
  2:{ left. by rewrite !world_bucket_match_non_get. }
  destruct (existsb (fun p => request_matches q (request_of_path (w_location w) p)) ps) eqn:E.
  - right. apply existsb_elem_of in E as (p & [i Hp]%list_elem_of_lookup & Hqp).
    destruct (storage_add_all_fulfilled w n ps w' Hn Hrun) as [_ Hstored].
    destruct (Hstored i p Hp) as (r & Hnet & Hacc & Hm). exists i, p, r. split_and!; try done.
    rewrite <-Hm. apply world_bucket_match_compat; [|done].
    unfold query_applicable in Hq. case_bool_decide; [done | discriminate].
  - left. apply (storage_add_all_others w n ps w' q Hn Hrun). intros p Hp.
    apply not_true_iff_false. intros Hqp. apply not_true_iff_false in E. apply E, existsb_elem_of. eauto.
Qed.

(** ** The implementation satisfies the interface *)

#[export] Instance world_host_laws : CacheHostLaws World.
Proof.
  split; simpl.
  - intros w n q _ Hn. by apply world_bucket_match_absent.
  - intros w n q. apply world_bucket_match_non_get.
  - intros w n q q'. apply world_bucket_match_compat.
  - intros w n Hwf.
    destruct (storage_open_spec w n Hwf) as (w' & Ho & Hwf' & Hnames & Hm & Hlog & Hloc & Hnet).
    exists n, w'. split_and!; try done. split; [done|]. intros k q. simpl. by rewrite Hnet.
  - intros w n ps s w' Hwf Hrun.
    destruct (storage_add_all_frame w n ps s w' Hwf Hrun) as (? & ? & Hloc & Hnet & ? & ?).
    split_and!; try done. split; [done|]. intros k q. simpl. by rewrite Hnet.
  - intros w n ps _ _. apply storage_add_all_outcome.
  - intros w n ps w' _ Hn Hrun. by apply storage_add_all_fulfilled.
  - intros w n ps w' q _ Hn Hrun. by apply storage_add_all_answers.
  - intros w n ps s w' _ Hrun Hs. apply storage_add_all_not_fulfilled in Hrun; [|done].
    split; simpl; unfold world_bucket_match; by rewrite Hrun.
  - intros w q Hwf. unfold storage_match, storage_lookup. simpl.
    by rewrite storage_match_first.
  - intros w q Hwf. eexists. split_and!; [reflexivity | done | | done | done].
    split; [done|]. intros n' q'. done.
Qed.
