(* ===== verification/Worker.v ===== *)
(** The worker of sw.js: its constants, its two event handlers, and
    their theorems, proved against the host interface [CacheHostLaws].

    - [on_install] is the install handler (sw.js lines 10-16): open the
      bucket [CACHE_NAME], then [addAll] the [ASSETS]; the promise it
      returns is the one [e.waitUntil] receives.
    - [on_fetch] is the fetch handler (sw.js lines 19-25): [caches.match]
      the request, then [response || fetch(request)]; the promise it
      returns is the one [e.respondWith] receives.

    The abstract specification of the fetch handler is the cache-first
    proxy [cache_first]; [on_fetch_refines] shows the handler implements
    it, with one network request exactly on a miss and no write to the
    cache.  The theorems are stated for any host satisfying the laws;
    their witnesses run them on the concrete host of [CacheStorage]
    (a worker at https://uni.example/app/sw.js, networks that answer,
    fail or never answer [index.html]). *)

From stdpp Require Import base list strings.
From Stdlib Require Import ZArith.
From S2P Require Import Prelude Http HostApi CacheStorage.

(** sw.js line 1 *)
Definition CACHE_NAME : string := "uni-bot-v1".

(** sw.js lines 4-7 *)
Definition ASSETS : list string := ["./"; "./index.html"].

Section Handlers.
Context {W : Type} `{!CacheHost W}.

(** sw.js lines 10-16 *)
Definition on_install : M W unit :=
  do cache <- caches_open CACHE_NAME ;
  cache_addAll cache ASSETS.

(** sw.js lines 19-25 *)
Definition on_fetch (request : Request) : M W Response :=
  do response <- caches_match request ;
  js_or response (fetch request).
End Handlers.

(** ** The abstract specification of the fetch handler *)

(** A cache-first proxy answers a request from its store when the store
    holds it and otherwise with the network's answer. *)
Definition cache_first (lookup : Request -> option Response)
    (network : Request -> Settled Response) (q : Request) : Settled Response :=
  match lookup q with
  | Some r => Fulfilled r
  | None => network q
  end.

(** The network requests the proxy sends for [q]. *)
Definition cache_first_requests (lookup : Request -> option Response) (q : Request)
    : list Request :=
  match lookup q with
  | Some _ => []
  | None => [q]
  end.

(** ** Facts about the asset list *)

(** No two assets name the same file, so [addAll] never meets two
    matching requests in its batch. *)
Lemma ASSETS_no_dup_match loc : no_dup_match (request_of_path loc <$> ASSETS) = true.
Proof.
  cbn -[request_matches request_of_path]. rewrite !andb_true_r, negb_true_iff.
  apply not_true_iff_false. by rewrite request_of_path_matches.
Qed.

Lemma ASSETS_http loc :
  dir_is_http loc = true ->
  forallb (fun q => is_http_url (req_url q)) (request_of_path loc <$> ASSETS) = true.
Proof. intros Hloc. simpl. by rewrite !resolve_path_http. Qed.

Section Theorems.
Context {W : Type} `{CacheHostLaws W}.

(** Running [caches.open CACHE_NAME] at the start of the install
    handler. *)
Lemma on_install_open (w : W) :
  host_wf w ->
  exists c w1, caches_open CACHE_NAME w = (Fulfilled c, w1) /\ cache_name c = CACHE_NAME /\
    host_wf w1 /\ CACHE_NAME ∈ bucket_names w1 /\
    (forall n q, bucket_match w1 n q = bucket_match w n q) /\
    network_log w1 = network_log w /\ same_env w w1 /\
    on_install w = cache_addAll c ASSETS w1.
Proof.
  intros Hwf.
  destruct (open_spec w CACHE_NAME Hwf) as (c & w1 & Ho & Hn & Hwf1 & Hnames & Hm & Hlog & Henv).
  exists c, w1. split_and!; try done.
  - rewrite Hnames. case_bool_decide; [done|]. apply elem_of_app. right. by left.
  - unfold on_install. by erewrite bind_fulfilled.
Qed.

(** The outcome of the install handler is the outcome of [addAll] on
    the state before the install: opening the bucket sends nothing and
    changes neither the location nor the network. *)
Lemma on_install_outcome (w : W) :
  host_wf w ->
  fst (on_install w) =
    add_all_outcome (host_location w) (network_answer w) (length (network_log w)) ASSETS.
Proof.
  intros Hwf.
  destruct (on_install_open w Hwf) as (c & w1 & _ & Hn & Hwf1 & Hin & _ & Hlog & [Hloc Hnet] & ->).
  rewrite add_all_outcome_spec by (by rewrite ?Hn). rewrite Hloc, Hlog.
  by apply add_all_outcome_ext.
Qed.

(** A step of the fetch handler: what it answers, the requests it
    sends and the host state it leaves. *)
Lemma on_fetch_step (w : W) (q : Request) :
  host_wf w ->
  exists w', on_fetch q w = (cache_first (storage_lookup w) (next_answer w) q, w') /\
    host_wf w' /\ cache_equiv w w' /\ same_env w w' /\
    network_log w' = network_log w ++ cache_first_requests (storage_lookup w) q.
Proof.
  intros Hwf. unfold on_fetch, cache_first, cache_first_requests.
  bind_step match_spec.
  destruct (storage_lookup w q) as [r|] eqn:E; simpl.
  - exists w. split_and!; try done; try reflexivity. by rewrite app_nil_r.
  - destruct (fetch_spec w q Hwf) as (w' & Hf & ? & ? & ? & ?). by exists w'.
Qed.

(** The install handler only writes the bucket [CACHE_NAME], creating
    it when absent. *)
Lemma on_install_frame (w : W) s w' :
  host_wf w -> on_install w = (s, w') ->
  host_wf w' /\ CACHE_NAME ∈ bucket_names w' /\ same_env w w' /\
  (forall n q, n <> CACHE_NAME -> bucket_match w' n q = bucket_match w n q).
Proof.
  intros Hwf Hrun.
  destruct (on_install_open w Hwf) as (c & w1 & _ & Hn & Hwf1 & Hin & Hm & _ & Henv & Hinst).
  rewrite Hinst in Hrun.
  destruct (add_all_frame w1 c ASSETS s w' Hwf1 Hrun) as (Hwf' & Hnames & Henv' & _ & Hother).
  split_and!; [done | by rewrite Hnames | by etrans | ].
  intros n q Hne. rewrite Hother by congruence. apply Hm.
Qed.

(** The buckets after the install: [CACHE_NAME] appended when it was
    absent. *)
Lemma on_install_names (w : W) s w' :
  host_wf w -> on_install w = (s, w') ->
  bucket_names w' =
    if bool_decide (CACHE_NAME ∈ bucket_names w) then bucket_names w
    else bucket_names w ++ [CACHE_NAME].
Proof.
  intros Hwf Hrun.
  destruct (open_spec w CACHE_NAME Hwf) as (c & w1 & Ho & _ & Hwf1 & Hnames & _).
  unfold on_install in Hrun. rewrite (bind_fulfilled _ _ _ _ _ Ho) in Hrun.
  destruct (add_all_frame w1 c ASSETS s w' Hwf1 Hrun) as (_ & -> & _). done.
Qed.

(** An install that is not fulfilled leaves every answer of
    [caches.match] as it was. *)
Lemma on_install_failed_lookup (w : W) s w' :
  host_wf w -> on_install w = (s, w') -> (forall u, s <> Fulfilled u) ->
  cache_equiv (snd (caches_open CACHE_NAME w)) w' /\
  (forall q, storage_lookup w' q = storage_lookup w q).
Proof.
  intros Hwf Hrun Hs.
  destruct (on_install_open w Hwf) as (c & w1 & Ho & _ & Hwf1 & _ & _ & _ & _ & Hinst).
  rewrite Hinst in Hrun. rewrite Ho. simpl.
  pose proof (add_all_not_fulfilled w1 c ASSETS s w' Hwf1 Hrun Hs) as Heq.
  split; [done|]. intros q. rewrite <-Heq. by apply (open_storage_lookup w CACHE_NAME c).
Qed.

(** C1. Refinement: the fetch handler implements the cache-first
    proxy over what [caches.match] answers.  It answers the stored
    response when some bucket holds the request and the network's
    answer otherwise; it sends exactly one network request on a miss
    and none on a hit; it writes nothing to the cache. *)
Theorem on_fetch_refines (w : W) (q : Request) :
  host_wf w ->
  exists w', on_fetch q w = (cache_first (storage_lookup w) (next_answer w) q, w') /\
    (forall q', storage_lookup w' q' = storage_lookup w q') /\
    network_log w' = network_log w ++ cache_first_requests (storage_lookup w) q.
Proof.
  intros Hwf. destruct (on_fetch_step w q Hwf) as (w' & Hrun & _ & Heq & _ & Hlog).
  exists w'. split_and!; [done | | done]. intros q'. by rewrite Heq.
Qed.

(** C4. A request some bucket holds is answered with the stored
    response, whatever the network would answer: the handler settles,
    sends nothing and leaves the host state as it was. *)
Theorem on_fetch_hit (w : W) (q : Request) (r : Response) :
  host_wf w -> storage_lookup w q = Some r -> on_fetch q w = (Fulfilled r, w).
Proof.
  intros Hwf Hl. unfold on_fetch. bind_step match_spec.
  by rewrite Hl.
Qed.

(** What a fulfilled install did, from the laws of [open] and
    [addAll]. *)
Lemma on_install_stored (w w' : W) :
  host_wf w -> on_install w = (Fulfilled tt, w') ->
  network_log w' = network_log w ++ (request_of_path (host_location w) <$> ASSETS) /\
  forall i p, ASSETS !! i = Some p ->
    exists r, network_answer w (length (network_log w) + i) (request_of_path (host_location w) p)
                = Fulfilled r /\
              add_all_acceptable r = true /\
              bucket_match w' CACHE_NAME (request_of_path (host_location w) p) = Some r.
Proof.
  intros Hwf Hrun.
  destruct (on_install_open w Hwf) as (c & w1 & _ & Hn & Hwf1 & Hin & _ & Hlog & [Hloc Hnet] & Hinst).
  rewrite Hinst in Hrun.
  destruct (add_all_fulfilled w1 c ASSETS w' Hwf1 ltac:(by rewrite Hn) Hrun) as [Hlog' Hstored].
  rewrite Hloc, Hlog, Hn in *. split; [done|].
  intros i p Hp. destruct (Hstored i p Hp) as (r & Hans & Hacc & Hm).
  exists r. by rewrite <-Hnet.
Qed.

(** After a fulfilled install the bucket [CACHE_NAME] answers every
    asset. *)
Lemma on_install_asset_stored (w w' : W) i p :
  host_wf w -> on_install w = (Fulfilled tt, w') -> ASSETS !! i = Some p ->
  exists r, bucket_match w' CACHE_NAME (request_of_path (host_location w) p) = Some r.
Proof.
  intros Hwf Hrun Hp. destruct (on_install_stored w w' Hwf Hrun) as [_ Hstored].
  destruct (Hstored i p Hp) as (r & _ & _ & Hm). by exists r.
Qed.

(** C2. A fulfilled install stored every asset: each asset was
    requested once, in the order of the list, the network answered it
    with a response [addAll] accepts (status 200-299, not 206), and
    the bucket [CACHE_NAME] answers that response for the asset. *)
Theorem on_install_fulfilled (w w' : W) :
  host_wf w -> on_install w = (Fulfilled tt, w') ->
  network_log w' = network_log w ++ (request_of_path (host_location w) <$> ASSETS) /\
  forall i p, ASSETS !! i = Some p ->
    exists r, network_answer w (length (network_log w) + i) (request_of_path (host_location w) p)
                = Fulfilled r /\
              add_all_acceptable r = true /\
              bucket_match w' CACHE_NAME (request_of_path (host_location w) p) = Some r.
Proof. apply on_install_stored. Qed.

(** C3. An install that is not fulfilled (rejected, or never settled)
    stores nothing: every bucket answers every request as before, so
    [caches.match] does too; only the empty bucket [CACHE_NAME] may
    have been created. *)
Theorem on_install_no_partial (w : W) s w' :
  host_wf w -> on_install w = (s, w') -> (forall u, s <> Fulfilled u) ->
  CACHE_NAME ∈ bucket_names w' /\
  (forall n q, bucket_match w' n q = bucket_match w n q) /\
  (forall q, storage_lookup w' q = storage_lookup w q).
Proof.
  intros Hwf Hrun Hs.
  destruct (on_install_open w Hwf) as (c & w1 & Ho & _ & _ & Hin & Hm & _ & _ & _).
  destruct (on_install_failed_lookup w s w' Hwf Hrun Hs) as [Heq Hlookup].
  rewrite Ho in Heq. simpl in Heq.
  split_and!; [by rewrite <-(ceq_names _ _ Heq) | | done].
  intros n q. by rewrite <-(ceq_match _ _ Heq).
Qed.

(** C5. Liveness of the install: when the worker's directory is an
    http(s) URL and the network answers every asset with a response
    [addAll] accepts, the install is fulfilled. *)
Theorem on_install_succeeds (w : W) :
  host_wf w -> dir_is_http (host_location w) = true ->
  (forall i p, ASSETS !! i = Some p ->
     exists r, network_answer w (length (network_log w) + i) (request_of_path (host_location w) p)
                 = Fulfilled r /\ add_all_acceptable r = true) ->
  exists w', on_install w = (Fulfilled tt, w').
Proof.
  intros Hwf Hloc Hok. pose proof (on_install_outcome w Hwf) as Hout.
  rewrite (add_all_outcome_fulfilled _ _ _ _ (ASSETS_http _ Hloc) (ASSETS_no_dup_match _)) in Hout.
  - destruct (on_install w) as [s w']. simpl in Hout. subst. eauto.
  - intros i p Hp. destruct (Hok i p Hp) as (r & Hr & Hacc). exists r.
    unfold checked_answer. rewrite Hr. simpl. by rewrite Hacc.
Qed.

(** C6. One asset answered with a network error, or with a response
    [addAll] refuses (a status outside 200-299, or 206), rejects the
    install, and the cache answers every request as before. *)
Theorem on_install_rejects (w : W) i p :
  host_wf w -> dir_is_http (host_location w) = true -> ASSETS !! i = Some p ->
  is_rejected (checked_answer (host_location w) (length (network_log w)) (network_answer w) i p)
    = true ->
  exists e w', on_install w = (Rejected e, w') /\
    (forall q, storage_lookup w' q = storage_lookup w q).
Proof.
  intros Hwf Hloc Hp Hrej. pose proof (on_install_outcome w Hwf) as Hout.
  destruct (add_all_outcome_rejected _ _ _ _ (ASSETS_http _ Hloc) i p Hp Hrej) as [e He].
  rewrite He in Hout. destruct (on_install w) as [s w'] eqn:Hrun. simpl in Hout. subst s.
  exists e, w'. split; [done|].
  apply (on_install_failed_lookup w (Rejected e) w'); [done..|]. by intros u.
Qed.

(** C7. No timeout: when the network never answers one asset and
    refuses none, the install never settles. *)
Theorem on_install_never_settles (w : W) i p :
  host_wf w -> dir_is_http (host_location w) = true -> ASSETS !! i = Some p ->
  network_answer w (length (network_log w) + i) (request_of_path (host_location w) p) = Pending ->
  (forall j p', ASSETS !! j = Some p' ->
     is_rejected (checked_answer (host_location w) (length (network_log w)) (network_answer w) j p')
       = false) ->
  exists w', on_install w = (Pending, w').
Proof.
  intros Hwf Hloc Hp Hpend Hnone. pose proof (on_install_outcome w Hwf) as Hout.
  rewrite (add_all_outcome_pending _ _ _ _ (ASSETS_http _ Hloc) i p Hp) in Hout;
    [| unfold checked_answer; by rewrite Hpend | done].
  destruct (on_install w) as [s w']. simpl in Hout. subst. eauto.
Qed.

(** C8. After a fulfilled install, a request for an asset is answered
    from the bucket [CACHE_NAME] with the response stored at install,
    without a network request, provided no other bucket held that
    asset before the install. *)
Theorem install_then_fetch_asset (w w' : W) p :
  host_wf w -> on_install w = (Fulfilled tt, w') -> p ∈ ASSETS ->
  (forall n, n <> CACHE_NAME -> bucket_match w n (request_of_path (host_location w) p) = None) ->
  exists r, bucket_match w' CACHE_NAME (request_of_path (host_location w) p) = Some r /\
    fst (on_fetch (request_of_path (host_location w) p) w') = Fulfilled r /\
    network_log (snd (on_fetch (request_of_path (host_location w) p) w')) = network_log w'.
Proof.
  intros Hwf Hrun Hp Hothers.
  destruct (on_install_frame w _ w' Hwf Hrun) as (Hwf' & _ & _ & Hframe).
  apply list_elem_of_lookup in Hp as [i Hi].
  destruct (on_install_asset_stored w w' i p Hwf Hrun Hi) as [r Hm]. exists r.
  assert (storage_lookup w' (request_of_path (host_location w) p) = Some r) as Hl.
  { rewrite (storage_lookup_only w' CACHE_NAME); [done..|].
    intros n Hn. rewrite Hframe by done. by apply Hothers. }
  destruct (on_fetch_step w' (request_of_path (host_location w) p) Hwf')
    as (w'' & -> & _ & _ & _ & Hlog).
  unfold cache_first, cache_first_requests in *. rewrite Hl in Hlog |- *. simpl.
  split; [done|]. by rewrite Hlog, app_nil_r.
Qed.

(** C9. A request whose method is not [GET] is never answered from
    the cache: the handler sends it to the network, even when a
    bucket holds a response for its URL. *)
Theorem on_fetch_non_get (w : W) (q : Request) :
  host_wf w -> query_applicable q = false ->
  exists w', on_fetch q w = (next_answer w q, w') /\ network_log w' = network_log w ++ [q].
Proof.
  intros Hwf Hq.
  assert (storage_lookup w q = None) as Hnone.
  { apply first_some_None. intros n _. by apply bucket_match_non_get. }
  destruct (on_fetch_step w q Hwf) as (w' & Hrun & _ & _ & _ & Hlog).
  exists w'. unfold cache_first, cache_first_requests in *. by rewrite Hnone in Hrun, Hlog.
Qed.

(** C16. Round trip through the cache: after a fulfilled install from
    a host where no other bucket held the asset, a fetch of the asset
    settles with exactly the response the network gave for it during
    the install, sends nothing and changes nothing. *)
Theorem install_fetch_roundtrip (w w' : W) i p :
  host_wf w -> on_install w = (Fulfilled tt, w') -> ASSETS !! i = Some p ->
  (forall n, n <> CACHE_NAME -> bucket_match w n (request_of_path (host_location w) p) = None) ->
  exists r,
    network_answer w (length (network_log w) + i) (request_of_path (host_location w) p) = Fulfilled r /\
    on_fetch (request_of_path (host_location w) p) w' = (Fulfilled r, w').
Proof.
  intros Hwf Hrun Hp Hothers.
  destruct (on_install_frame w _ w' Hwf Hrun) as (Hwf' & _ & _ & Hframe).
  destruct (on_install_stored w w' Hwf Hrun) as [_ Hstored].
  destruct (Hstored i p Hp) as (r & Hans & _ & Hm). exists r. split; [done|].
  unfold on_fetch. bind_step match_spec.
  rewrite (storage_lookup_only w' CACHE_NAME), Hm; [done..|].
  intros n Hn. rewrite Hframe by done. by apply Hothers.
Qed.

(** C15. An install never hides what older buckets serve: when the
    bucket [CACHE_NAME] did not exist (a new version), every request
    [caches.match] answered before the install is answered alike after
    it, whatever the install's outcome.  An earlier version's bucket
    keeps serving its copy of an asset, fresh copy or not. *)
Theorem install_keeps_older_answers (w : W) s w' q r :
  host_wf w -> CACHE_NAME ∉ bucket_names w -> on_install w = (s, w') ->
  storage_lookup w q = Some r -> storage_lookup w' q = Some r.
Proof.
  intros Hwf Hnew Hrun Hl.
  destruct (on_install_frame w s w' Hwf Hrun) as (_ & _ & _ & Hframe).
  unfold storage_lookup in *. rewrite (on_install_names w s w' Hwf Hrun).
  rewrite bool_decide_eq_false_2 by done. rewrite first_some_app.
  erewrite first_some_ext; [by rewrite Hl|].
  intros n Hn. apply Hframe. by intros ->.
Qed.
End Theorems.


(** ** Concrete runs on the host of [CacheStorage]

    A worker served from https://uni.example/app/sw.js; the network
    answers every request with status 200, or fails or never answers
    the request for index.html. *)

Definition example_location : string := "https://uni.example/app/sw.js".

Definition example_request (p : string) : Request := request_of_path example_location p.

Definition ok_response (q : Request) : Response := mkResponse 200 (url_href (req_url q)).

(** The network answers [index.html] with [o] and everything else with
    status 200. *)
Definition example_net (o : Request -> NetOutcome) : Network := fun _ q =>
  if bool_decide (q = example_request "./index.html") then o q else NetResponse (ok_response q).

Definition example_world (o : Request -> NetOutcome) : World :=
  mkWorld example_location [] [] (example_net o).

Definition fresh_world : World := example_world (fun q => NetResponse (ok_response q)).
Definition installed_world : World := snd (on_install fresh_world).
Definition world_net_error : World := example_world (fun _ => NetFailure).
Definition world_hang : World := example_world (fun _ => NetHang).

Lemma on_fetch_refines_witness :
  exists w', on_fetch (example_request "./other.js") installed_world =
    (cache_first (storage_lookup installed_world) (next_answer installed_world)
       (example_request "./other.js"), w') /\
    (forall q', storage_lookup w' q' = storage_lookup installed_world q') /\
    network_log w' = network_log installed_world ++
      cache_first_requests (storage_lookup installed_world) (example_request "./other.js").
Proof. apply on_fetch_refines. decide_by_compute. Defined.

Lemma on_fetch_hit_witness :
  storage_lookup installed_world (example_request "./index.html")
    = Some (ok_response (example_request "./index.html")) /\
  on_fetch (example_request "./index.html") installed_world
    = (Fulfilled (ok_response (example_request "./index.html")), installed_world).
Proof.
  split; [reflexivity|]. apply on_fetch_hit; [decide_by_compute | reflexivity].
Defined.

Lemma on_install_fulfilled_witness :
  network_log installed_world =
    network_log fresh_world ++ (request_of_path (host_location fresh_world) <$> ASSETS) /\
  forall i p, ASSETS !! i = Some p ->
    exists r, network_answer fresh_world (length (network_log fresh_world) + i)
                (request_of_path (host_location fresh_world) p) = Fulfilled r /\
              add_all_acceptable r = true /\
              bucket_match installed_world CACHE_NAME (request_of_path (host_location fresh_world) p)
                = Some r.
Proof. apply on_install_fulfilled; [decide_by_compute | reflexivity]. Defined.

Lemma on_install_no_partial_witness :
  CACHE_NAME ∈ bucket_names (snd (on_install world_net_error)) /\
  (forall n q, bucket_match (snd (on_install world_net_error)) n q = bucket_match world_net_error n q) /\
  (forall q, storage_lookup (snd (on_install world_net_error)) q = storage_lookup world_net_error q).
Proof.
  apply (on_install_no_partial world_net_error (Rejected TypeError)); [decide_by_compute | reflexivity |].
  intros u. discriminate.
Defined.

Lemma on_install_succeeds_witness : exists w', on_install fresh_world = (Fulfilled tt, w').
Proof.
  apply on_install_succeeds; [decide_by_compute | reflexivity |].
  intros i p Hp. destruct i as [|[|i]]; cbn in Hp; inversion Hp; subst;
    eexists; split; vm_compute; reflexivity.
Defined.

Lemma on_install_rejects_witness :
  exists e w', on_install world_net_error = (Rejected e, w') /\
    (forall q, storage_lookup w' q = storage_lookup world_net_error q).
Proof. apply (on_install_rejects world_net_error 1 "./index.html"); [decide_by_compute | reflexivity..]. Defined.

Lemma on_install_never_settles_witness : exists w', on_install world_hang = (Pending, w').
Proof.
  apply (on_install_never_settles world_hang 1 "./index.html"); [decide_by_compute | reflexivity.. |].
  intros j p' Hp'. destruct j as [|[|j]]; cbn in Hp'; inversion Hp'; subst; vm_compute; reflexivity.
Defined.

Lemma install_then_fetch_asset_witness :
  exists r, bucket_match installed_world CACHE_NAME (request_of_path (host_location fresh_world) "./")
      = Some r /\
    fst (on_fetch (request_of_path (host_location fresh_world) "./") installed_world) = Fulfilled r /\
    network_log (snd (on_fetch (request_of_path (host_location fresh_world) "./") installed_world))
      = network_log installed_world.
Proof.
  apply (install_then_fetch_asset fresh_world installed_world "./");
    [decide_by_compute | reflexivity | by left |].
  intros n _. reflexivity.
Defined.

Lemma on_fetch_non_get_witness :
  exists w', on_fetch (mkRequest (resolve_path example_location "./index.html") POST) installed_world
    = (next_answer installed_world (mkRequest (resolve_path example_location "./index.html") POST), w') /\
    network_log w' = network_log installed_world ++ [mkRequest (resolve_path example_location "./index.html") POST].
Proof. apply on_fetch_non_get; [decide_by_compute | reflexivity]. Defined.

(** A host where an earlier version left the bucket [uni-bot-v0] with
    its own copy of [index.html]. *)
Definition old_index : Response := mkResponse 200 "old index".

Definition stale_world : World :=
  mkWorld example_location [("uni-bot-v0", [(example_request "./index.html", old_index)])] []
    (example_net (fun q => NetResponse (ok_response q))).

Lemma install_keeps_older_answers_witness :
  storage_lookup (snd (on_install stale_world)) (example_request "./index.html") = Some old_index.
Proof.
  apply (install_keeps_older_answers stale_world (fst (on_install stale_world)));
    [decide_by_compute | decide_by_compute | | reflexivity].
  by destruct (on_install stale_world).
Defined.

Lemma install_fetch_roundtrip_witness :
  exists r,
    network_answer fresh_world (length (network_log fresh_world) + 1)
      (request_of_path (host_location fresh_world) "./index.html") = Fulfilled r /\
    on_fetch (request_of_path (host_location fresh_world) "./index.html") installed_world
      = (Fulfilled r, installed_world).
Proof.
  apply (install_fetch_roundtrip fresh_world installed_world 1 "./index.html");
    [decide_by_compute | reflexivity | reflexivity |].
  intros n _. reflexivity.
Defined.
