(* ===== verification/Scenarios.v ===== *)
(** The worker of sw.js run on the concrete host of [CacheStorage]: the
    scenario of the specification (section 8, item 5), and the
    behaviours the modelling brought out, each checked by evaluation.
    These are tests of the executable model on fixed inputs; the
    general statements are the theorems of [Worker] and [Versions].

    - [spec_scenario]: after the install the bucket holds the two
      assets; [./index.html] is answered from it; [./other.js] is sent
      to the network.
    - [stale_bucket_served]: [caches.match] searches every bucket of
      the origin in creation order, so a bucket of an earlier version
      ([uni-bot-v0]) that holds [index.html] answers before
      [uni-bot-v1], although the install just stored a fresh copy.
    - [install_404_leaves_empty_bucket]: an asset answered with 404
      rejects the install, and the bucket [uni-bot-v1] stays, empty.
    - [fetch_fragment_served], [fetch_query_to_network]: the cache
      ignores the fragment of a URL, not its query.
    - [fetch_miss_passthrough]: on a miss the network's response, a 404
      included, is returned as it is and not stored. *)

From stdpp Require Import base list strings.
From Stdlib Require Import ZArith.
From S2P Require Import Prelude Http HostApi CacheStorage Worker.

(** A request of the page for a URL of the worker's directory. *)
Definition page_request (href : string) (query fragment : option string) : Request :=
  mkRequest (mkUrl href query fragment) GET.

Definition index_request : Request := example_request "./index.html".
Definition other_request : Request := example_request "./other.js".

(** A network that answers 404 for [index.html]. *)
Definition world_404 : World := example_world (fun _ => NetResponse (mkResponse 404 "")).

(** The installed worker, and a network that answers 404 for
    [missing.png]. *)
Definition missing_world : World :=
  mkWorld example_location (w_caches installed_world) (w_log installed_world)
    (fun _ q => if bool_decide (url_href (req_url q) = "https://uni.example/app/missing.png")
                then NetResponse (mkResponse 404 "not found") else NetResponse (ok_response q)).

(** The scenario of the specification: the install is fulfilled
    and leaves one bucket, [uni-bot-v1], with two entries; a request for
    [./index.html] is answered with the stored copy and sends nothing; a
    request for [./other.js] sends exactly that request to the network
    and answers its response. *)
Example spec_scenario :
  fst (on_install fresh_world) = Fulfilled tt /\
  (w_caches installed_world).*1 = [CACHE_NAME] /\
  length (default [] (bucket_of (w_caches installed_world) CACHE_NAME)) = 2 /\
  on_fetch (index_request) installed_world
    = (Fulfilled (ok_response (index_request)), installed_world) /\
  fst (on_fetch (other_request) installed_world)
    = Fulfilled (ok_response (other_request)) /\
  w_log (snd (on_fetch (other_request) installed_world))
    = w_log installed_world ++ [other_request].
Proof. split_and!; vm_compute; reflexivity. Qed.

(** A bucket left by an earlier version answers first: the install
    stores a fresh [index.html] in [uni-bot-v1], yet the fetch handler
    answers the stale copy of [uni-bot-v0], which differs from what the
    worker's own bucket holds. *)
Example stale_bucket_served :
  fst (on_install stale_world) = Fulfilled tt /\
  bucket_match (snd (on_install stale_world)) CACHE_NAME (index_request)
    = Some (ok_response (index_request)) /\
  on_fetch (index_request) (snd (on_install stale_world))
    = (Fulfilled old_index, snd (on_install stale_world)) /\
  old_index <> ok_response (index_request).
Proof. split_and!; vm_compute; try reflexivity. discriminate. Qed.

(** An asset answered with 404 rejects the install with a
    [TypeError]; both assets were requested; the bucket [uni-bot-v1]
    has been created and stays empty. *)
Example install_404_leaves_empty_bucket :
  fst (on_install world_404) = Rejected TypeError /\
  w_log (snd (on_install world_404)) = example_request <$> ASSETS /\
  w_caches (snd (on_install world_404)) = [(CACHE_NAME, [])].
Proof. split_and!; vm_compute; reflexivity. Qed.

(** The fragment of a URL is ignored: [index.html#top] is answered
    from the cache; a query is not: [index.html?v=2] goes to the
    network. *)
Example fetch_fragment_and_query :
  on_fetch (page_request "https://uni.example/app/index.html" None (Some "top")) installed_world
    = (Fulfilled (ok_response (index_request)), installed_world) /\
  w_log (snd (on_fetch (page_request "https://uni.example/app/index.html" (Some "v=2") None)
                installed_world))
    = w_log installed_world ++ [page_request "https://uni.example/app/index.html" (Some "v=2") None].
Proof. split; vm_compute; reflexivity. Qed.

(** On a miss the network's response is returned as it is, a 404
    included, and nothing is stored. *)
Example fetch_miss_passthrough :
  fst (on_fetch (page_request "https://uni.example/app/missing.png" None None) missing_world)
    = Fulfilled (mkResponse 404 "not found") /\
  w_caches (snd (on_fetch (page_request "https://uni.example/app/missing.png" None None) missing_world))
    = w_caches missing_world.
Proof. split; vm_compute; reflexivity. Qed.
