(* ===== verification/Lifecycle.v ===== *)
(** The host's side of sw.js: how the browser dispatches the events the
    worker listens to ([self.addEventListener], sw.js lines 10 and 19)
    and what it does with the promises the handlers give to
    [e.waitUntil] and [e.respondWith].

    A system state [Sys] is the worker's lifecycle state, the host state
    and the answers given to the page so far.  [step] is one event:

    - the install event runs [on_install]; a fulfilled promise makes the
      worker installed, a rejected one makes it redundant, and a promise
      that never settles leaves it installing for ever;
    - the activate event (sw.js has no handler for it) activates an
      installed worker;
    - a fetch event, delivered only to the active worker, runs
      [on_fetch] and records what [e.respondWith] answered the page.

    The theorems hold of every state reachable from a fresh worker, by
    induction on the sequence of steps: the host state stays well
    formed, and from installation on every asset is answered by
    [caches.match]; an active worker answers every asset from the cache
    without the network. *)

From stdpp Require Import base list strings.
From Stdlib Require Import Relation_Operators.
From S2P Require Import Prelude Http HostApi CacheStorage Worker.

Inductive SwState : Type :=
| Parsed
| Installing
| Installed
| Activated
| Redundant.

#[export] Instance SwState_eq_dec : EqDecision SwState.
Proof. solve_decision. Defined.

Record Sys (W : Type) : Type := mkSys {
  sys_state : SwState;
  sys_world : W;
  sys_answers : list (Request * Settled Response);
}.
Arguments mkSys {W} _ _ _.
Arguments sys_state {W} _.
Arguments sys_world {W} _.
Arguments sys_answers {W} _.

Section Step.
Context {W : Type} `{!CacheHost W}.

(** One event dispatched to the worker. *)
Inductive step : Sys W -> Sys W -> Prop :=
| step_install_fulfilled w w' ans :
    on_install w = (Fulfilled tt, w') ->
    step (mkSys Parsed w ans) (mkSys Installed w' ans)
| step_install_rejected w e w' ans :
    on_install w = (Rejected e, w') ->
    step (mkSys Parsed w ans) (mkSys Redundant w' ans)
| step_install_pending w w' ans :
    on_install w = (Pending, w') ->
    step (mkSys Parsed w ans) (mkSys Installing w' ans)
| step_activate w ans :
    step (mkSys Installed w ans) (mkSys Activated w ans)
| step_fetch q w s w' ans :
    on_fetch q w = (s, w') ->
    step (mkSys Activated w ans) (mkSys Activated w' (ans ++ [(q, s)])).

(** The states reachable from a worker that has just been parsed. *)
Definition reachable (w0 : W) (S : Sys W) : Prop :=
  clos_refl_trans_1n _ step (mkSys Parsed w0 []) S.

(** The invariant of the reachable states, for a worker at [loc]. *)
Definition lifecycle_inv (loc : string) (S : Sys W) : Prop :=
  host_wf (sys_world S) /\ host_location (sys_world S) = loc /\
  (sys_state S = Installed \/ sys_state S = Activated ->
   forall p, p ∈ ASSETS -> storage_lookup (sys_world S) (request_of_path loc p) <> None).
End Step.

Section Theorems.
Context {W : Type} `{CacheHostLaws W}.

Lemma step_preserves_inv loc (S S' : Sys W) :
  step S S' -> lifecycle_inv loc S -> lifecycle_inv loc S'.
Proof.
  intros Hstep (Hwf & Hloc & Hassets). unfold lifecycle_inv.
  destruct Hstep as [w w' ans Hrun|w e w' ans Hrun|w w' ans Hrun|w ans|q w s w' ans Hrun];
    simpl in *.
  - destruct (on_install_frame w _ w' Hwf Hrun) as (Hwf' & _ & [Hloc' _] & _).
    split; [done|]; split; [by rewrite Hloc'|]. intros _ p [i Hi]%list_elem_of_lookup.
    destruct (on_install_asset_stored w w' i p Hwf Hrun Hi) as [r Hm].
    rewrite <-Hloc. by eapply storage_lookup_of_bucket.
  - destruct (on_install_frame w _ w' Hwf Hrun) as (Hwf' & _ & [Hloc' _] & _).
    split; [done|]; split; [by rewrite Hloc' | by intros [? | ?]].
  - destruct (on_install_frame w _ w' Hwf Hrun) as (Hwf' & _ & [Hloc' _] & _).
    split; [done|]; split; [by rewrite Hloc' | by intros [? | ?]].
  - split_and!; [done | done |]. intros _. apply Hassets. by left.
  - destruct (on_fetch_step w q Hwf) as (w'' & Hrun' & Hwf' & Heq & [Hloc' _] & _).
    rewrite Hrun' in Hrun. simplify_eq.
    split; [done|]; split; [by rewrite Hloc'|]. intros _ p Hp. rewrite <-Heq.
    apply Hassets; [by right | done].
Qed.

Lemma reachable_inv_gen (w0 : W) S S' :
  clos_refl_trans_1n _ step S S' -> lifecycle_inv (host_location w0) S ->
  lifecycle_inv (host_location w0) S'.
Proof.
  induction 1 as [|S1 S2 S3 Hstep _ IH]; [done|].
  intros Hinv. apply IH. by eapply step_preserves_inv.
Qed.

(** C10. Invariant of the lifecycle: in every state reachable from a
    freshly parsed worker on a well-formed host, the host state is well
    formed, the worker's location is unchanged, and once the worker is
    installed (or active) [caches.match] answers every asset. *)
Theorem reachable_invariant (w0 : W) (S : Sys W) :
  host_wf w0 -> reachable w0 S -> lifecycle_inv (host_location w0) S.
Proof.
  intros Hwf Hr. apply (reachable_inv_gen w0 _ _ Hr).
  split_and!; [done | done |]. by intros [? | ?].
Qed.

(** C11. Offline availability: an active worker reachable from a fresh
    one answers a fetch event for any asset with a fulfilled response
    from the cache, sending nothing to the network, whatever the network
    would answer. *)
Theorem activated_serves_assets (w0 : W) (S : Sys W) p :
  host_wf w0 -> reachable w0 S -> sys_state S = Activated -> p ∈ ASSETS ->
  exists r S', step S S' /\
    sys_answers S' = sys_answers S ++ [(request_of_path (host_location w0) p, Fulfilled r)] /\
    network_log (sys_world S') = network_log (sys_world S).
Proof.
  intros Hwf Hr Hact Hp.
  destruct (reachable_inv_gen w0 _ _ Hr) as (HwfS & _ & Hassets);
    [split_and!; [done | done | by intros [? | ?]] |].
  destruct S as [st w ans]. simpl in *. subst st.
  set (q := request_of_path (host_location w0) p).
  destruct (storage_lookup w q) as [r|] eqn:Hl; [|by destruct (Hassets (or_intror eq_refl) p Hp)].
  destruct (on_fetch_step w q HwfS) as (w' & Hrun & _ & _ & _ & Hlog).
  unfold cache_first, cache_first_requests in *. rewrite Hl in Hrun, Hlog.
  exists r, (mkSys Activated w' (ans ++ [(q, Fulfilled r)])). split_and!; simpl.
  - by apply step_fetch.
  - done.
  - by rewrite Hlog, app_nil_r.
Qed.

End Theorems.

(** ** Concrete runs *)

(** A fresh worker installed, then activated, on the concrete host. *)
Lemma reachable_activated :
  reachable fresh_world (mkSys Activated installed_world []).
Proof.
  eapply rt1n_trans; [apply step_install_fulfilled; reflexivity|].
  eapply rt1n_trans; [apply step_activate|]. apply rt1n_refl.
Qed.

Lemma reachable_invariant_witness :
  lifecycle_inv (host_location fresh_world) (mkSys Activated installed_world []).
Proof. apply reachable_invariant; [decide_by_compute | apply reachable_activated]. Defined.

Lemma activated_serves_assets_witness :
  exists r S', step (mkSys Activated installed_world []) S' /\
    sys_answers S' = sys_answers (mkSys Activated installed_world [])
      ++ [(request_of_path (host_location fresh_world) "./index.html", Fulfilled r)] /\
    network_log (sys_world S') = network_log (sys_world (mkSys Activated installed_world [])).
Proof.
  apply (activated_serves_assets fresh_world);
    [decide_by_compute | apply reachable_activated | reflexivity | by right; left].
Defined.
