(* ===== verification/Interleaving.v ===== *)
(** The handlers of sw.js as threads that the host interleaves.

    Each handler of sw.js is a chain of promises: the install handler
    awaits [caches.open(CACHE_NAME)] and then [cache.addAll(ASSETS)]
    (sw.js lines 12-13), the fetch handler awaits [caches.match] and then
    evaluates [response || fetch(e.request)] (lines 21-22).  Between two
    of these steps the event loop may run any other handler.  A
    [Thread] is a handler invocation suspended at one of its awaits; a
    [Pool] is the list of invocations started so far with the shared
    host state; [run_step] lets one thread take its next step, and
    [sched_step] also lets the host dispatch a new event to the
    listener sw.js registered for it.  The host operations themselves
    are atomic steps, as the laws of [HostApi] describe them ([addAll]
    commits its batch at once).

    The pool holds every handler invocation running against the
    origin's CacheStorage: the install handler of a newly installed
    version and the fetch handlers of the version that controls the
    page, which run the same fetch code.

    - [install_chain] and [fetch_chain] are the two chains of sw.js
      split at their [.then]; [thread_step] runs a thread's next step.
    - [threads_implement_handlers] and [interleavings_terminate] are
      lemmas of the model: a thread run alone computes exactly
      [on_install] or [on_fetch], and every interleaving of a pool is
      finite, two steps per handler at most.
    - [pool_requests_bounded]: an install sends at most [length ASSETS]
      network requests, a fetch at most one, however they interleave.
    - [assets_all_or_none_reachable]: under any interleaving, the
      bucket [CACHE_NAME] holds none of the assets or all of them, so no
      fetch handler observes a partial install.
    - [only_add_all_writes]: only the [addAll] step of an install
      writes into a bucket, and only into its own.
    - [fetch_order_matters] (an example on the concrete host): two
      schedules of one install and one fetch of [index.html] answer the
      page differently. *)

From stdpp Require Import base list relations strings.
From Stdlib Require Import Wellfounded.
From S2P Require Import Prelude Http HostApi CacheStorage Worker.

(** ** Threads *)

Section Threads.
Context {W : Type} `{!CacheHost W}.

(** A handler invocation, at the await it is suspended at. *)
Inductive Thread : Type :=
| InstallOpen
| InstallAdd (cache : CacheRef)
| InstallDone (s : Settled unit)
| FetchMatch (request : Request)
| FetchOr (request : Request) (response : option Response)
| FetchDone (request : Request) (s : Settled Response).

(** The events sw.js listens to. *)
Inductive Event : Type :=
| InstallEvent
| FetchEvent (request : Request).

(** The listener registered for an event, at its first step. *)
Definition listener (e : Event) : Thread :=
  match e with
  | InstallEvent => InstallOpen
  | FetchEvent request => FetchMatch request
  end.

(** [m.then(k)]: on fulfilment the handler goes on with [k]; a
    rejection, or a promise that never settles, settles the handler's
    own promise alike. *)
Definition await {A B} (m : M W A) (k : A -> Thread) (stop : Settled B -> Thread) (w : W)
    : Thread * W :=
  match m w with
  | (Fulfilled a, w') => (k a, w')
  | (Rejected e, w') => (stop (Rejected e), w')
  | (Pending, w') => (stop Pending, w')
  end.

(** The promise a [.then] callback returns settles the handler's. *)
Definition finish {A} (m : M W A) (stop : Settled A -> Thread) (w : W) : Thread * W :=
  let (s, w') := m w in (stop s, w').

(** The install handler's chain (sw.js lines 12-14):
    [caches.open(CACHE_NAME)], then [(cache) => cache.addAll(ASSETS)]. *)
Definition install_chain (t : Thread) : option (W -> Thread * W) :=
  match t with
  | InstallOpen => Some (await (caches_open CACHE_NAME) InstallAdd InstallDone)
  | InstallAdd cache => Some (finish (cache_addAll cache ASSETS) InstallDone)
  | _ => None
  end.

(** The fetch handler's chain (sw.js lines 21-23):
    [caches.match(e.request)], then [(response) => response || fetch(e.request)]. *)
Definition fetch_chain (t : Thread) : option (W -> Thread * W) :=
  match t with
  | FetchMatch request => Some (await (caches_match request) (FetchOr request) (FetchDone request))
  | FetchOr request response => Some (finish (js_or response (fetch request)) (FetchDone request))
  | _ => None
  end.

(** The next step of a thread, by the chain of its handler; a settled
    handler has none. *)
Definition thread_step (t : Thread) : option (W -> Thread * W) :=
  match t with
  | InstallOpen | InstallAdd _ | InstallDone _ => install_chain t
  | FetchMatch _ | FetchOr _ _ | FetchDone _ _ => fetch_chain t
  end.

(** A thread run alone for at most [fuel] steps. *)
Fixpoint run_alone (fuel : nat) (t : Thread) (w : W) : Thread * W :=
  match fuel with
  | 0 => (t, w)
  | S fuel' =>
      match thread_step t with
      | Some f => let (t', w') := f w in run_alone fuel' t' w'
      | None => (t, w)
      end
  end.

(** The steps a thread has left. *)
Definition thread_size (t : Thread) : nat :=
  match t with
  | InstallOpen | FetchMatch _ => 2
  | InstallAdd _ | FetchOr _ _ => 1
  | InstallDone _ | FetchDone _ _ => 0
  end.

(** The network requests a thread may still send. *)
Definition thread_budget (t : Thread) : nat :=
  match t with
  | InstallOpen | InstallAdd _ => length ASSETS
  | FetchMatch _ | FetchOr _ _ => 1
  | InstallDone _ | FetchDone _ _ => 0
  end.

(** The network requests a handler may send in all, by its kind. *)
Definition handler_budget (t : Thread) : nat :=
  match t with
  | InstallOpen | InstallAdd _ | InstallDone _ => length ASSETS
  | FetchMatch _ | FetchOr _ _ | FetchDone _ _ => 1
  end.

(** The handler invocations started so far, and the host state. *)
Definition Pool : Type := list Thread * W.

(** One thread takes its next step. *)
Inductive run_step : Pool -> Pool -> Prop :=
| run_thread ts w i t f t' w' :
    ts !! i = Some t -> thread_step t = Some f -> f w = (t', w') ->
    run_step (ts, w) (<[i:=t']> ts, w').

(** The host either runs a thread or dispatches an event. *)
Inductive sched_step : Pool -> Pool -> Prop :=
| sched_run c c' : run_step c c' -> sched_step c c'
| sched_dispatch ts w e : sched_step (ts, w) (ts ++ [listener e], w).

(** An executable scheduler: run thread [i], when it has a step. *)
Definition step_at (i : nat) (c : Pool) : Pool :=
  match c.1 !! i with
  | Some t =>
      match thread_step t with
      | Some f => let (t', w') := f c.2 in (<[i:=t']> c.1, w')
      | None => c
      end
  | None => c
  end.

(** What the host does next: dispatch an event or run a thread. *)
Inductive Action : Type :=
| Dispatch (e : Event)
| Run (i : nat).

Definition perform (c : Pool) (a : Action) : Pool :=
  match a with
  | Dispatch e => (c.1 ++ [listener e], c.2)
  | Run i => step_at i c
  end.

Definition run_script (script : list Action) (c : Pool) : Pool := foldl perform c script.
End Threads.

Arguments Thread W {_}.
Arguments Pool W {_}.

(** ** Threads alone, and termination *)

Section Generic.
Context {W : Type} `{!CacheHost W}.

Lemma run_alone_settled fuel t (w : W) : thread_step t = None -> run_alone fuel t w = (t, w).
Proof. destruct fuel; simpl; [done|]. by intros ->. Qed.

Lemma await_world {A B} (m : M W A) k (stop : Settled B -> Thread W) w :
  snd (await m k stop w) = snd (m w).
Proof. unfold await. by destruct (m w) as [[a|e|] w']. Qed.

Lemma finish_world {A} (m : M W A) (stop : Settled A -> Thread W) w :
  snd (finish m stop w) = snd (m w).
Proof. unfold finish. by destruct (m w). Qed.

(** Every step brings a thread closer to settling. *)
Lemma thread_step_size t f (w : W) :
  thread_step t = Some f -> thread_size (fst (f w)) < thread_size t.
Proof.
  destruct t; simpl; intros [= <-]; unfold await, finish;
    repeat match goal with |- context [match ?m with _ => _ end] => destruct m end; simpl; lia.
Qed.

Definition pool_size (ts : list (Thread W)) : nat := sum_list_with thread_size ts.

Lemma run_step_size (c c' : Pool W) : run_step c c' -> pool_size c'.1 < pool_size c.1.
Proof.
  intros [ts w i t f t' w' Hi Hf Hrun]. simpl. unfold pool_size.
  pose proof (sum_list_with_insert thread_size ts i t t' Hi).
  pose proof (thread_step_size t f w Hf) as Hlt. rewrite Hrun in Hlt. simpl in Hlt. lia.
Qed.

Lemma run_step_length (c c' : Pool W) : run_step c c' -> length c'.1 = length c.1.
Proof. intros []. simpl. apply length_insert. Qed.

Lemma pool_size_bound (ts : list (Thread W)) : pool_size ts <= 2 * length ts.
Proof. apply sum_list_with_le. intros [] _; simpl; lia. Qed.

Lemma nsteps_run_size n (c c' : Pool W) : nsteps run_step n c c' -> n <= pool_size c.1.
Proof.
  induction 1 as [|n c1 c2 c3 Hstep _ IH]; [lia|].
  pose proof (run_step_size _ _ Hstep). lia.
Qed.

(** The executable scheduler takes steps of [sched_step]. *)
Lemma step_at_rtc i (c : Pool W) : rtc run_step c (step_at i c).
Proof.
  destruct c as [ts w]. unfold step_at. simpl.
  destruct (ts !! i) as [t|] eqn:Hi; [|done].
  destruct (thread_step t) as [f|] eqn:Hf; [|done].
  destruct (f w) as [t' w'] eqn:Hrun. apply rtc_once. by econstructor.
Qed.

Lemma run_script_rtc script (c : Pool W) : rtc sched_step c (run_script script c).
Proof.
  revert c. induction script as [|a script IH]; intros c; simpl; [done|].
  etrans; [|apply IH]. destruct a as [e|i]; simpl.
  - destruct c. apply rtc_once. apply sched_dispatch.
  - eapply rtc_subrel; [|apply step_at_rtc]. intros ??. by constructor.
Qed.

(** Equivalence of the two semantics: a thread of the install or
    of the fetch handler, run alone with fuel at least two, settles
    with exactly the outcome and the host state that [on_install] and
    [on_fetch] compute; splitting the handlers at their awaits changes
    nothing when no other handler runs in between. *)
Lemma threads_implement_handlers (w : W) (q : Request) fuel :
  2 <= fuel ->
  run_alone fuel InstallOpen w = (InstallDone (fst (on_install w)), snd (on_install w)) /\
  run_alone fuel (FetchMatch q) w = (FetchDone q (fst (on_fetch q w)), snd (on_fetch q w)).
Proof.
  intros Hfuel. destruct fuel as [|[|fuel]]; [lia..|].
  unfold on_install, on_fetch, bind. simpl. unfold await, finish. split.
  - destruct (caches_open CACHE_NAME w) as [[c|e|] w1]; simpl; [|by rewrite ?run_alone_settled..].
    unfold finish. destruct (cache_addAll c ASSETS w1). simpl. by rewrite run_alone_settled.
  - destruct (caches_match q w) as [[o|e|] w1]; simpl; [|by rewrite ?run_alone_settled..].
    unfold finish. destruct (js_or o (fetch q) w1). simpl. by rewrite run_alone_settled.
Qed.

(** Termination: every interleaving of the handlers of a pool is
    finite (the pool is strongly normalising for [run_step]), and no
    interleaving takes more than two steps per handler. *)
Lemma interleavings_terminate (c : Pool W) :
  sn run_step c /\ forall n c', nsteps run_step n c c' -> n <= 2 * length c.1.
Proof.
  split.
  - revert c. apply (wf_incl _ _ (ltof _ (fun c => pool_size c.1))); [|apply well_founded_ltof].
    intros c' c Hstep. by apply run_step_size.
  - intros n c' Hn. pose proof (pool_size_bound c.1). pose proof (nsteps_run_size _ _ _ Hn). lia.
Qed.
End Generic.

(** ** One step of a thread on a lawful host *)

Section Laws.
Context {W : Type} `{CacheHostLaws W}.

(** What one step of [t] to [t'] does to the host state [w] → [w']: it
    keeps the host well formed and its environment; it sends no more
    requests than the thread's budget goes down; it removes no bucket;
    a step that is not an [addAll] writes nothing, and an [addAll]
    writes only its own bucket; a thread suspended at its [addAll]
    holds the bucket [CACHE_NAME], which exists. *)
Definition step_frame (t t' : Thread W) (w w' : W) : Prop :=
  host_wf w' /\ same_env w w' /\
  (exists sent, network_log w' = network_log w ++ sent /\
                length sent + thread_budget t' <= thread_budget t) /\
  (forall n, n ∈ bucket_names w -> n ∈ bucket_names w') /\
  (forall n q, (forall c, t = InstallAdd c -> cache_name c <> n) ->
     bucket_match w' n q = bucket_match w n q) /\
  (forall c, t' = InstallAdd c -> cache_name c = CACHE_NAME /\ CACHE_NAME ∈ bucket_names w').

Lemma finish_inv {A} (m : M W A) (stop : Settled A -> Thread W) w t' w' :
  finish m stop w = (t', w') -> exists s, m w = (s, w') /\ t' = stop s.
Proof. unfold finish. destruct (m w) as [s w1]. intros [= <- <-]. by exists s. Qed.

Lemma step_frame_read (t t' : Thread W) (w : W) :
  host_wf w -> (forall c, t' <> InstallAdd c) -> thread_budget t' <= thread_budget t ->
  step_frame t t' w w.
Proof.
  intros Hwf Ht' Hb. split_and!; [done | reflexivity | | done | done |].
  - exists []. split; [by rewrite app_nil_r | simpl; lia].
  - intros c Hc. by destruct (Ht' c).
Qed.

Lemma thread_step_frame (t : Thread W) f w t' w' :
  host_wf w -> thread_step t = Some f -> f w = (t', w') -> step_frame t t' w w'.
Proof.
  intros Hwf. destruct t as [|c| |q|q o|]; simpl; intros [= <-]; try done.
  - destruct (open_spec w CACHE_NAME Hwf) as (c & w1 & Ho & Hn & Hwf1 & Hnames & Hm & Hlog & Henv).
    unfold await. rewrite Ho. intros [= <- <-].
    split_and!; try done.
    + exists []. split; [by rewrite app_nil_r, Hlog | simpl; lia].
    + intros n Hin. rewrite Hnames. case_bool_decide; [done|]. apply elem_of_app. by left.
    + intros ? [= <-]. split; [done|]. rewrite Hnames.
      case_bool_decide; [done|]. apply elem_of_app. right. by left.
  - intros (s & Hrun & ->)%finish_inv.
    destruct (add_all_frame w c _ s w' Hwf Hrun) as (Hwf' & Hnames & Henv & Hsent & Hother).
    split_and!; try done.
    + destruct Hsent as (sent & ? & ?). exists sent. simpl in *. split; [done | lia].
    + intros n. by rewrite Hnames.
    + intros n q' Hn. apply Hother. intros ->. by apply (Hn c).
  - unfold await. rewrite match_spec by done. intros [= <- <-].
    apply step_frame_read; [done | by intros ? [=] | simpl; lia].
  - intros (s & Hrun & ->)%finish_inv. destruct o as [r|]; simpl in Hrun.
    + injection Hrun as <- <-.
      apply step_frame_read; [done | by intros ? [=] | simpl; lia].
    + destruct (fetch_spec w q Hwf) as (w1 & Hf & Hwf1 & [Hnames Hm] & Hlog & Henv).
      rewrite Hf in Hrun. injection Hrun as <- <-.
      split_and!; [done | done | | | | by intros ? [=]].
      * exists [q]. simpl. split; [done | lia].
      * intros n. by rewrite Hnames.
      * intros n q' _. by rewrite Hm.
Qed.

(** A step only appends buckets: the buckets of [w], in their order,
    are the first buckets of [w']. *)
Lemma thread_step_names (t : Thread W) f w t' w' :
  host_wf w -> thread_step t = Some f -> f w = (t', w') ->
  exists extra, bucket_names w' = bucket_names w ++ extra.
Proof.
  intros Hwf. destruct t as [|c| |q|q o|]; simpl; intros [= <-]; try done.
  - destruct (open_spec w CACHE_NAME Hwf) as (c & w1 & Ho & _ & _ & Hnames & _).
    unfold await. rewrite Ho. intros [= <- <-]. rewrite Hnames.
    case_bool_decide; [exists []; by rewrite app_nil_r | by eexists].
  - intros (s & Hrun & ->)%finish_inv.
    destruct (add_all_frame w c _ s w' Hwf Hrun) as (_ & -> & _). exists []. by rewrite app_nil_r.
  - unfold await. rewrite match_spec by done. intros [= <- <-]. exists []. by rewrite app_nil_r.
  - intros (s & Hrun & ->)%finish_inv. exists []. rewrite app_nil_r.
    destruct o as [r|]; simpl in Hrun; [by injection Hrun as <- <-|].
    destruct (fetch_spec w q Hwf) as (w1 & Hf & _ & [Hnames _] & _).
    rewrite Hf in Hrun. by injection Hrun as <- <-.
Qed.

(** A thread keeps its kind: install or fetch. *)
Lemma thread_step_kind (t : Thread W) f w t' w' :
  thread_step t = Some f -> f w = (t', w') -> handler_budget t' = handler_budget t.
Proof.
  destruct t; simpl; intros [= <-]; unfold await, finish;
    repeat match goal with |- context [match ?m with _ => _ end] => destruct m end;
    intros [= <- <-]; done.
Qed.
End Laws.

(** ** Invariants of every interleaving *)

Section Pools.
Context {W : Type} `{CacheHostLaws W}.

Definition pool_budget (ts : list (Thread W)) : nat := sum_list_with thread_budget ts.

(** The requests the handlers of the pool may send in all:
    [length ASSETS] per install, one per fetch. *)
Definition pool_handlers (ts : list (Thread W)) : nat := sum_list_with handler_budget ts.

(** The bucket [CACHE_NAME] answers none of the assets, or all of them. *)
Definition assets_all_or_none (loc : string) (w : W) : Prop :=
  (forall p, p ∈ ASSETS -> bucket_match w CACHE_NAME (request_of_path loc p) = None) \/
  (forall p, p ∈ ASSETS -> is_Some (bucket_match w CACHE_NAME (request_of_path loc p))).

(** The invariant of the pools reachable from a host state [w0]. *)
Definition pool_inv (w0 : W) (c : Pool W) : Prop :=
  host_wf c.2 /\ host_location c.2 = host_location w0 /\
  network_log w0 `prefix_of` network_log c.2 /\
  length (network_log c.2) + pool_budget c.1 <= length (network_log w0) + pool_handlers c.1 /\
  (forall cache, InstallAdd cache ∈ c.1 ->
     cache_name cache = CACHE_NAME /\ CACHE_NAME ∈ bucket_names c.2).

Lemma listener_budget (e : Event) :
  thread_budget (listener e : Thread W) = handler_budget (listener e : Thread W).
Proof. by destruct e. Qed.

Lemma all_or_none_same loc (w w' : W) :
  (forall q, bucket_match w' CACHE_NAME q = bucket_match w CACHE_NAME q) ->
  assets_all_or_none loc w -> assets_all_or_none loc w'.
Proof. intros Hm. unfold assets_all_or_none. by setoid_rewrite Hm. Qed.

Lemma sched_step_pool_inv w0 (c c' : Pool W) : sched_step c c' -> pool_inv w0 c -> pool_inv w0 c'.
Proof.
  intros [c1 c2 [ts w i t f t' w' Hi Hf Hrun]|ts w e] (Hwf & Hloc & Hpre & Hbud & Hadd);
    unfold pool_inv, pool_budget, pool_handlers in *; simpl in *.
  - destruct (thread_step_frame t f w t' w' Hwf Hf Hrun)
      as (Hwf' & [Hloc' _] & (sent & Hlog & Hsent) & Hnames & _ & Hnew).
    pose proof (sum_list_with_insert thread_budget ts i t t' Hi).
    pose proof (sum_list_with_insert handler_budget ts i t t' Hi).
    pose proof (thread_step_kind t f w t' w' Hf Hrun).
    rewrite Hlog, length_app. split_and!; [done | by rewrite Hloc' | by apply prefix_app_r | lia |].
    intros cache [<-|Hin]%elem_of_insert_inv; [by apply Hnew|].
    destruct (Hadd cache Hin). split; [done|]. by apply Hnames.
  - rewrite !sum_list_with_app. simpl. rewrite listener_budget.
    split_and!; [done.. | lia |].
    intros cache [Hin|Hin%list_elem_of_singleton]%elem_of_app; [by apply Hadd|]. by destruct e.
Qed.

Lemma rtc_pool_inv w0 (c c' : Pool W) : rtc sched_step c c' -> pool_inv w0 c -> pool_inv w0 c'.
Proof. induction 1; eauto using sched_step_pool_inv. Qed.

Lemma pool_inv_init (w0 : W) : host_wf w0 -> pool_inv w0 ([], w0).
Proof. intros Hwf. split_and!; simpl; [done | done | done | lia | by intros ? ?%elem_of_nil]. Qed.

(** The [addAll] step of an install: all the assets stored, or
    nothing changed. *)
Lemma add_all_step_all_or_none (w : W) cache s w' :
  host_wf w -> cache_name cache = CACHE_NAME -> CACHE_NAME ∈ bucket_names w ->
  cache_addAll cache ASSETS w = (s, w') ->
  assets_all_or_none (host_location w) w -> assets_all_or_none (host_location w) w'.
Proof.
  intros Hwf Hn Hin Hrun Hall. destruct (decide (s = Fulfilled tt)) as [->|Hs].
  - right. intros p [i Hp]%list_elem_of_lookup.
    destruct (add_all_fulfilled w cache ASSETS w' Hwf ltac:(by rewrite Hn) Hrun) as [_ Hstored].
    destruct (Hstored i p Hp) as (r & _ & _ & Hm). rewrite <-Hn. by eexists.
  - apply (all_or_none_same _ w); [|done]. intros q.
    symmetry. apply ceq_match, (add_all_not_fulfilled w cache ASSETS s w' Hwf Hrun).
    by intros [] ->.
Qed.

Lemma run_step_all_or_none w0 (c c' : Pool W) :
  run_step c c' -> pool_inv w0 c ->
  assets_all_or_none (host_location w0) c.2 -> assets_all_or_none (host_location w0) c'.2.
Proof.
  intros [ts w i t f t' w' Hi Hf Hrun] (Hwf & Hloc & _ & _ & Hadd). simpl in *.
  destruct (thread_step_frame t f w t' w' Hwf Hf Hrun) as (_ & _ & _ & _ & Hm & _).
  destruct t as [|cache| | | |];
    try (apply all_or_none_same; intros q; apply Hm; by intros ? [=]).
  simpl in Hf. injection Hf as <-. apply finish_inv in Hrun as (s & Hrun & ->).
  destruct (Hadd cache) as [Hn Hin]; [by eapply list_elem_of_lookup_2|].
  rewrite <-Hloc. by apply (add_all_step_all_or_none w cache s w').
Qed.
Lemma rtc_all_or_none w0 (c c' : Pool W) :
  rtc sched_step c c' -> pool_inv w0 c ->
  assets_all_or_none (host_location w0) c.2 -> assets_all_or_none (host_location w0) c'.2.
Proof.
  induction 1 as [|c1 c2 c3 Hs _ IH]; [done|]. intros Hinv Hall.
  apply IH; [by eapply sched_step_pool_inv|].
  destruct Hs as [? ? Hr|]; [by eapply run_step_all_or_none | done].
Qed.

(** C12. Bound on the network requests: from any host state, however
    the host dispatches events and interleaves the handlers, the
    requests sent only extend the log, and each install sends at most
    [length ASSETS] of them and each fetch at most one. *)
Theorem pool_requests_bounded (w0 : W) ts w :
  host_wf w0 -> rtc sched_step ([], w0) (ts, w) ->
  network_log w0 `prefix_of` network_log w /\
  length (network_log w) <= length (network_log w0) + pool_handlers ts.
Proof.
  intros Hwf Hr. destruct (rtc_pool_inv w0 _ _ Hr (pool_inv_init w0 Hwf))
    as (_ & _ & Hpre & Hbud & _).
  simpl in *. split; [done | lia].
Qed.

(** C13. No fetch handler observes a partial install: when the bucket
    [CACHE_NAME] holds none or all of the assets at the start, it does
    so after any interleaving of install and fetch handlers, since the
    only write, the batch of [addAll], stores every asset or nothing. *)
Theorem assets_all_or_none_reachable (w0 : W) ts w :
  host_wf w0 -> assets_all_or_none (host_location w0) w0 ->
  rtc sched_step ([], w0) (ts, w) -> assets_all_or_none (host_location w0) w.
Proof.
  intros Hwf Hall Hr. apply (rtc_all_or_none w0 _ _ Hr); [by apply pool_inv_init | done].
Qed.

(** C14. The cache is written only by the [addAll] of an install: a
    step of the pool that changes what some bucket [n] answers is the
    step of an install thread suspended at [cache.addAll(ASSETS)] on
    the bucket [n], which settles that install. *)
Theorem only_add_all_writes (ts ts' : list (Thread W)) (w w' : W) n q :
  host_wf w -> run_step (ts, w) (ts', w') -> bucket_match w' n q <> bucket_match w n q ->
  exists i cache s, ts !! i = Some (InstallAdd cache) /\ ts' = <[i:=InstallDone s]> ts /\
    cache_name cache = n.
Proof.
  intros Hwf Hstep Hne. inversion Hstep as [? ? i t f t' ? Hi Hf Hrun]; subst.
  destruct (thread_step_frame t f w t' w' Hwf Hf Hrun) as (_ & _ & _ & _ & Hm & _).
  destruct t as [|cache| | | |];
    try (exfalso; apply Hne, Hm; by intros ? [=]).
  simpl in Hf. injection Hf as <-. apply finish_inv in Hrun as (s & _ & ->).
  exists i, cache, s. split_and!; [done | done |].
  destruct (decide (cache_name cache = n)) as [|Hcn]; [done|].
  exfalso. apply Hne, Hm. by intros ? [= <-].
Qed.
End Pools.

(** ** Concrete interleavings on the host of [CacheStorage] *)

(** A network that answers the first [k0] requests with status 200 and
    fails from then on: the device goes offline. *)
Definition offline_after (k0 : nat) : Network := fun k q =>
  if bool_decide (k < k0) then NetResponse (ok_response q) else NetFailure.

(** The worker at https://uni.example/app/sw.js, offline after the two
    requests of its install. *)
Definition offline_world : World := mkWorld example_location [] [] (offline_after 2).

Definition index_fetch : Event := FetchEvent (example_request "./index.html").

(** The fetch handler matches before the install commits, then the
    install runs, then the fetch goes to the network. *)
Definition fetch_first : list Action :=
  [Dispatch InstallEvent; Dispatch index_fetch; Run 1; Run 0; Run 0; Run 1].

(** The install runs to its end before the fetch handler starts. *)
Definition install_first : list Action :=
  [Dispatch InstallEvent; Dispatch index_fetch; Run 0; Run 0; Run 1; Run 1].

(** The order of the awaits matters: with one install and one
    fetch of [index.html], on a device that goes offline once the
    install has fetched the assets, both schedules fulfil the install;
    the fetch whose [caches.match] ran before the commit fails with a
    [TypeError] although the bucket then holds [index.html], and the
    fetch that runs after the install is answered from the cache. *)
Example fetch_order_matters :
  (run_script fetch_first ([], offline_world)).1 =
    [InstallDone (Fulfilled tt);
     FetchDone (example_request "./index.html") (Rejected TypeError)] /\
  bucket_match (run_script fetch_first ([], offline_world)).2 CACHE_NAME
    (example_request "./index.html") = Some (ok_response (example_request "./index.html")) /\
  (run_script install_first ([], offline_world)).1 =
    [InstallDone (Fulfilled tt);
     FetchDone (example_request "./index.html")
       (Fulfilled (ok_response (example_request "./index.html")))].
Proof. split_and!; vm_compute; reflexivity. Qed.

(** The host state after [caches.open(CACHE_NAME)] on a fresh host,
    and the outcome of [addAll] from there. *)
Definition opened_world : World := snd (storage_open CACHE_NAME fresh_world).
Definition add_all_result : Settled unit * World := storage_add_all CACHE_NAME ASSETS opened_world.

Lemma pool_requests_bounded_witness :
  network_log offline_world `prefix_of` network_log (run_script fetch_first ([], offline_world)).2 /\
  length (network_log (run_script fetch_first ([], offline_world)).2)
    <= length (network_log offline_world) + pool_handlers (run_script fetch_first ([], offline_world)).1.
Proof.
  apply pool_requests_bounded; [decide_by_compute|].
  rewrite <-surjective_pairing. apply run_script_rtc.
Defined.

Lemma assets_all_or_none_reachable_witness :
  assets_all_or_none (host_location offline_world) (run_script fetch_first ([], offline_world)).2.
Proof.
  apply assets_all_or_none_reachable with (ts := (run_script fetch_first ([], offline_world)).1);
    [decide_by_compute | left; intros p _; reflexivity |].
  rewrite <-surjective_pairing. apply run_script_rtc.
Defined.

Lemma only_add_all_writes_witness :
  exists i cache s, [InstallAdd (W:=World) CACHE_NAME] !! i = Some (InstallAdd cache) /\
    <[0:=InstallDone add_all_result.1]> [InstallAdd (W:=World) CACHE_NAME]
      = <[i:=InstallDone s]> [InstallAdd CACHE_NAME] /\
    cache_name cache = CACHE_NAME.
Proof.
  apply (only_add_all_writes _ _ opened_world add_all_result.2 CACHE_NAME
           (example_request "./index.html")).
  - decide_by_compute.
  - apply (@run_thread World world_host _ _ 0 (@InstallAdd World world_host CACHE_NAME)
             (finish (@cache_addAll World world_host CACHE_NAME ASSETS) InstallDone));
      [reflexivity | reflexivity | vm_compute; reflexivity].
  - vm_compute. discriminate.
Defined.
