(* ===== verification/Versions.v ===== *)
(** A new version of the worker installed while the page keeps
    fetching: the lifecycle of [Lifecycle] and the interleaving of
    [Interleaving] in one system, with what the page receives.

    - [wait_until] is what the host does with the promise the install
      handler gives to [e.waitUntil] (sw.js line 11): fulfilled, the
      worker is installed; rejected, it is redundant; never settled, it
      stays installing.
    - [page_result] is what the page's fetch receives from the promise
      the fetch handler gives to [e.respondWith] (sw.js line 20): the
      response it fulfils with, a network error when it rejects, and
      nothing ever when it never settles.
    - A system [VSys] holds the new version's lifecycle state, its
      install thread, the pool of fetch threads of the worker that
      controls the page (the previous version before the activation,
      this one after; both run the fetch code of sw.js), and the host
      state.  [vstep] dispatches the install event, runs the install
      thread, settles [e.waitUntil], activates, dispatches a fetch event
      or runs a fetch thread, in any order.

    The theorems: the page sees a network error exactly when no bucket
    holds the request and the network fails ([page_network_error]); in
    every reachable system an installed or active new version has all
    its assets in its bucket, however the fetches interleaved with its
    install ([installed_version_has_assets]); an active new version
    answers every asset without the network
    ([activated_assets_answered]); in every reachable system a request
    an older bucket answered is still answered with that copy, by
    [caches.match] and by every fetch the page started
    ([older_answers_survive_switch]; [version_switch_scenario] runs one
    such switch on the concrete host).  A lemma of the model: every
    run of the one-worker lifecycle of [Lifecycle] is a run of this
    system in which each handler runs to its end at once
    ([lifecycle_refines_versions]). *)

From stdpp Require Import base list relations strings.
From Stdlib Require Import Relation_Operators.
From S2P Require Import Prelude Http HostApi CacheStorage Worker Lifecycle Interleaving.

(** ** The host's use of the handlers' promises *)

(** [e.waitUntil(p)] in the install event: the state the worker moves
    to when [p] settles; none while it never settles. *)
Definition wait_until (s : Settled unit) : option SwState :=
  match s with
  | Fulfilled _ => Some Installed
  | Rejected _ => Some Redundant
  | Pending => None
  end.

(** What the page's fetch receives. *)
Inductive PageResult : Type :=
| PageResponse (r : Response)
| PageNetworkError
| PageWaiting.

#[export] Instance PageResult_eq_dec : EqDecision PageResult.
Proof. solve_decision. Defined.

(** [e.respondWith(p)] in the fetch event: the page gets the response
    [p] fulfils with, a network error when [p] rejects, and waits for
    ever when [p] never settles. *)
Definition page_result (s : Settled Response) : PageResult :=
  match s with
  | Fulfilled r => PageResponse r
  | Rejected _ => PageNetworkError
  | Pending => PageWaiting
  end.

(** ** The system of two versions *)

Section System.
Context {W : Type} `{!CacheHost W}.

Record VSys : Type := mkVSys {
  v_state : SwState;
  v_install : Thread W;
  v_pool : list (Thread W);
  v_world : W;
}.

(** One event or one step of a handler. *)
Inductive vstep : VSys -> VSys -> Prop :=
| v_install_event t ts w :
    vstep (mkVSys Parsed t ts w) (mkVSys Installing t ts w)
| v_install_run t f t' ts w w' :
    thread_step t = Some f -> f w = (t', w') ->
    vstep (mkVSys Installing t ts w) (mkVSys Installing t' ts w')
| v_settle s st ts w :
    wait_until s = Some st ->
    vstep (mkVSys Installing (InstallDone s) ts w) (mkVSys st (InstallDone s) ts w)
| v_activate t ts w :
    vstep (mkVSys Installed t ts w) (mkVSys Activated t ts w)
| v_fetch_event st t ts w q :
    vstep (mkVSys st t ts w) (mkVSys st t (ts ++ [listener (FetchEvent q)]) w)
| v_fetch_run st t ts w ts' w' :
    run_step (ts, w) (ts', w') ->
    vstep (mkVSys st t ts w) (mkVSys st t ts' w').

(** The systems reachable from a new version just parsed, on a host
    state [w0], with no fetch in flight. *)
Definition vreachable (w0 : W) (S : VSys) : Prop :=
  rtc vstep (mkVSys Parsed InstallOpen [] w0) S.

(** An executable run of the system, for concrete scenarios. *)
Inductive VAction : Type :=
| VInstallEvent
| VInstallRun
| VSettle
| VActivate
| VFetchEvent (request : Request)
| VFetchRun (i : nat).

Definition vperform (S : VSys) (a : VAction) : VSys :=
  match a, S with
  | VInstallEvent, mkVSys Parsed t ts w => mkVSys Installing t ts w
  | VInstallRun, mkVSys Installing t ts w =>
      match thread_step t with
      | Some f => let (t', w') := f w in mkVSys Installing t' ts w'
      | None => S
      end
  | VSettle, mkVSys Installing (InstallDone s) ts w =>
      match wait_until s with
      | Some st => mkVSys st (InstallDone s) ts w
      | None => S
      end
  | VActivate, mkVSys Installed t ts w => mkVSys Activated t ts w
  | VFetchEvent q, mkVSys st t ts w => mkVSys st t (ts ++ [listener (FetchEvent q)]) w
  | VFetchRun i, mkVSys st t ts w =>
      let c := step_at i (ts, w) in mkVSys st t c.1 c.2
  | _, _ => S
  end.

Definition vrun (script : list VAction) (S : VSys) : VSys := foldl vperform S script.
End System.

Arguments VSys W {_}.

(** ** The executable run takes steps of the system *)

Section Run.
Context {W : Type} `{!CacheHost W}.

Lemma vperform_rtc (S : VSys W) a : rtc vstep S (vperform S a).
Proof.
  destruct a as [| | | |q|i]; simpl.
  - destruct S as [[] t ts w]; try done. apply rtc_once. constructor.
  - destruct S as [[] t ts w]; try done.
    destruct (thread_step t) as [f|] eqn:Hf; [|done].
    destruct (f w) as [t' w'] eqn:Hrun. apply rtc_once. by econstructor.
  - destruct S as [[] [| |s| | |] ts w]; try done.
    destruct (wait_until s) as [st|] eqn:Hs; [|done]. apply rtc_once. by constructor.
  - destruct S as [[] t ts w]; try done. apply rtc_once. constructor.
  - destruct S. apply rtc_once. constructor.
  - destruct S as [st t ts w]. unfold step_at. simpl.
    destruct (ts !! i) as [t0|] eqn:Hi; [|done].
    destruct (thread_step t0) as [f|] eqn:Hf; [|done].
    destruct (f w) as [t' w'] eqn:Hrun. apply rtc_once, v_fetch_run. by econstructor.
Qed.

Lemma vrun_rtc script (S : VSys W) : rtc vstep S (vrun script S).
Proof.
  revert S. induction script as [|a script IH]; intros S; simpl; [done|].
  etrans; [apply vperform_rtc | apply IH].
Qed.
End Run.

(** ** Invariant of the system *)

Section Invariant.
Context {W : Type} `{CacheHostLaws W}.

(** A thread of the fetch handler. *)
Definition is_fetch_thread (t : Thread W) : bool :=
  match t with
  | FetchMatch _ | FetchOr _ _ | FetchDone _ _ => true
  | InstallOpen | InstallAdd _ | InstallDone _ => false
  end.

(** Every asset is answered by the bucket [CACHE_NAME]. *)
Definition assets_stored (loc : string) (w : W) : Prop :=
  forall p, p ∈ ASSETS -> is_Some (bucket_match w CACHE_NAME (request_of_path loc p)).

(** The invariant of the systems reachable from [w0]. *)
Definition vinv (w0 : W) (S : VSys W) : Prop :=
  host_wf (v_world S) /\ host_location (v_world S) = host_location w0 /\
  (forall t, t ∈ v_pool S -> is_fetch_thread t = true) /\
  (forall c, v_install S = InstallAdd c ->
     cache_name c = CACHE_NAME /\ CACHE_NAME ∈ bucket_names (v_world S)) /\
  (v_state S = Installed \/ v_state S = Activated -> v_install S = InstallDone (Fulfilled tt)) /\
  (v_install S = InstallDone (Fulfilled tt) -> assets_stored (host_location w0) (v_world S)).

Lemma assets_stored_same loc (w w' : W) :
  (forall q, bucket_match w' CACHE_NAME q = bucket_match w CACHE_NAME q) ->
  assets_stored loc w -> assets_stored loc w'.
Proof. intros Hm Hs p Hp. rewrite Hm. by apply Hs. Qed.

Lemma fetch_thread_step (t : Thread W) f w t' w' :
  is_fetch_thread t = true -> thread_step t = Some f -> f w = (t', w') -> is_fetch_thread t' = true.
Proof.
  destruct t; simpl; try done; intros _ [= <-]; unfold await, finish;
    repeat match goal with |- context [match ?m with _ => _ end] => destruct m end;
    by intros [= <- <-].
Qed.

(** Only the [addAll] step settles an install with a fulfilled
    promise. *)
Lemma install_step_fulfilled (t : Thread W) f w w' :
  thread_step t = Some f -> f w = (InstallDone (Fulfilled tt), w') ->
  exists c, t = InstallAdd c /\ cache_addAll c ASSETS w = (Fulfilled tt, w').
Proof.
  destruct t as [|c| | | |]; simpl; try done; intros [= <-]; unfold await, finish.
  - by destruct (caches_open CACHE_NAME w) as [[|[]|] ?].
  - destruct (cache_addAll c ASSETS w) as [s w1] eqn:E. intros [= -> ->]. by exists c.
  - by destruct (caches_match _ w) as [[|[]|] ?].
  - by destruct (js_or _ _ w).
Qed.

(** A step of a fetch thread keeps the invariant. *)
Lemma vinv_fetch_run w0 st t ts w ts' w' :
  run_step (ts, w) (ts', w') -> vinv w0 (mkVSys st t ts w) -> vinv w0 (mkVSys st t ts' w').
Proof.
  intros Hstep (Hwf & Hloc & Hfetch & Hadd & Hst & Hstored). unfold vinv. simpl in *.
  inversion Hstep as [? ? i t0 f t0' ? Hi Hf Hrun]; subst.
  destruct (thread_step_frame t0 f w t0' w' Hwf Hf Hrun) as (Hwf' & [Hloc' _] & _ & Hnames & Hm & _).
  assert (is_fetch_thread t0 = true) as Ht0 by (apply Hfetch; by eapply list_elem_of_lookup_2).
  assert (forall n q, bucket_match w' n q = bucket_match w n q) as Hsame.
  { intros n q. apply Hm. intros c ->. done. }
  split_and!; [done | by rewrite Hloc' | | | done |].
  - intros t1 [->|]%elem_of_insert_inv; [by eapply fetch_thread_step | by apply Hfetch].
  - intros c Hc. destruct (Hadd c Hc). split; [done|]. by apply Hnames.
  - intros Hdone. apply (assets_stored_same _ w); [intros; apply Hsame | by apply Hstored].
Qed.

(** A step of the install thread keeps the invariant. *)
Lemma vinv_install_run w0 t f t' ts w w' :
  thread_step t = Some f -> f w = (t', w') ->
  vinv w0 (mkVSys Installing t ts w) -> vinv w0 (mkVSys Installing t' ts w').
Proof.
  intros Hf Hrun (Hwf & Hloc & Hfetch & Hadd & _ & _). unfold vinv. simpl in *.
  destruct (thread_step_frame t f w t' w' Hwf Hf Hrun) as (Hwf' & [Hloc' _] & _ & _ & _ & Hnew).
  split_and!; [done | by rewrite Hloc' | done | done | by intros [? | ?] |].
  intros ->. destruct (install_step_fulfilled t f w w' Hf Hrun) as (c & -> & Hadd_run).
  destruct (Hadd c eq_refl) as [Hn Hin].
  destruct (add_all_fulfilled w c ASSETS w' Hwf ltac:(by rewrite Hn) Hadd_run) as [_ Hstored].
  intros p [i Hp]%list_elem_of_lookup. destruct (Hstored i p Hp) as (r & _ & _ & Hm).
  rewrite <-Hloc, <-Hn. by eexists.
Qed.

Lemma vstep_vinv w0 (S S' : VSys W) : vstep S S' -> vinv w0 S -> vinv w0 S'.
Proof.
  intros Hstep Hinv. unfold vinv in *. destruct Hstep as [t ts w|t f t' ts w w' Hf Hrun|s st ts w Hs|t ts w|st t ts w q|
                                         st t ts w ts' w' Hrun].
  - destruct Hinv as (? & ? & ? & ? & _ & ?). split_and!; try done. by intros [? | ?].
  - by apply (vinv_install_run w0 t f t' ts w w').
  - destruct Hinv as (? & ? & ? & ? & _ & ?). split_and!; try done.
    intros Hst'. destruct s as [[]| |]; simpl in Hs; simplify_eq; [done | by destruct Hst'].
  - destruct Hinv as (? & ? & ? & ? & Hst & ?). split_and!; try done. intros _. apply Hst. by left.
  - destruct Hinv as (? & ? & Hfetch & ? & ? & ?). split_and!; try done. simpl.
    intros t1 [Ht1|Ht1%list_elem_of_singleton]%elem_of_app; [by apply Hfetch | by subst].
  - by apply (vinv_fetch_run w0 st t ts w ts' w').
Qed.

Lemma vreachable_vinv (w0 : W) S : host_wf w0 -> vreachable w0 S -> vinv w0 S.
Proof.
  intros Hwf Hr. unfold vreachable in Hr.
  assert (vinv w0 (mkVSys Parsed InstallOpen [] w0)) as Hinit.
  { split_and!; simpl; [done | done | by intros ? ?%elem_of_nil | done | by intros [? | ?] | done]. }
  revert Hinit. induction Hr as [|S1 S2 S3 Hs _ IH]; [done|]. intros Hinv.
  apply IH. by eapply vstep_vinv.
Qed.
End Invariant.

(** ** What older buckets answer *)

Section Older.
Context {W : Type} `{CacheHostLaws W}.

(** The buckets of [w0] come first in [w], in their order, and each
    answers as it did in [w0]. *)
Definition older_kept (w0 w : W) : Prop :=
  (exists extra, bucket_names w = bucket_names w0 ++ extra) /\
  (forall n q, n ∈ bucket_names w0 -> bucket_match w n q = bucket_match w0 n q).

(** A fetch thread for [q] that has looked [q] up found [r], and one
    that has settled settled with [r]. *)
Definition fetch_found (q : Request) (r : Response) (t : Thread W) : Prop :=
  (forall o, t = FetchOr q o -> o = Some r) /\ (forall s, t = FetchDone q s -> s = Fulfilled r).

Lemma older_kept_lookup (w0 w : W) q r :
  older_kept w0 w -> storage_lookup w0 q = Some r -> storage_lookup w q = Some r.
Proof.
  intros [[extra Hnames] Hm] Hl. unfold storage_lookup in *. rewrite Hnames, first_some_app.
  erewrite first_some_ext; [by rewrite Hl|]. intros n Hn. by apply Hm.
Qed.

(** A step of a thread that does not write into a bucket of [w0]
    keeps what [w0]'s buckets answer. *)
Lemma thread_step_older_kept (w0 : W) t f w t' w' :
  host_wf w -> CACHE_NAME ∉ bucket_names w0 ->
  (forall c, t = InstallAdd c -> cache_name c = CACHE_NAME) ->
  thread_step t = Some f -> f w = (t', w') -> older_kept w0 w -> older_kept w0 w'.
Proof.
  intros Hwf Hnew Hadd Hf Hrun [[extra Hnames] Hm].
  destruct (thread_step_names t f w t' w' Hwf Hf Hrun) as [extra' Hnames'].
  destruct (thread_step_frame t f w t' w' Hwf Hf Hrun) as (_ & _ & _ & _ & Hwrite & _).
  split; [exists (extra ++ extra'); by rewrite Hnames', Hnames, app_assoc|].
  intros n q Hn. rewrite Hwrite; [by apply Hm|]. intros c Hc Heq. apply Hnew. by rewrite <-(Hadd c Hc), Heq.
Qed.

(** The chain of the fetch handler, on a host where [caches.match]
    answers [q] with [r], keeps its threads for [q] on [r]. *)
Lemma thread_step_fetch_found q r (t : Thread W) f w t' w' :
  host_wf w -> storage_lookup w q = Some r -> fetch_found q r t ->
  thread_step t = Some f -> f w = (t', w') -> fetch_found q r t'.
Proof.
  intros Hwf Hl [Hor Hdone]. destruct t as [|c| |q'|q' o|]; simpl; intros [= <-]; try done.
  - unfold await. destruct (caches_open CACHE_NAME w) as [[|e|] ?]; intros [= <- _]; by split.
  - intros (s & _ & ->)%finish_inv. by split.
  - unfold await. rewrite match_spec by done. intros [= <- _].
    split; [by intros o [= -> <-] | done].
  - intros (s & Hrun & ->)%finish_inv. split; [done|]. intros s' [= -> <-].
    rewrite (Hor o eq_refl) in Hrun. simpl in Hrun. by injection Hrun as <-.
Qed.

(** The invariant of the systems reachable from [w0] about a request
    [q] that [w0] answers with [r]. *)
Definition older_inv (w0 : W) q r (S : VSys W) : Prop :=
  older_kept w0 (v_world S) /\ forall t, t ∈ v_pool S -> fetch_found q r t.

Lemma vstep_older_inv (w0 : W) q r (S S' : VSys W) :
  CACHE_NAME ∉ bucket_names w0 -> storage_lookup w0 q = Some r ->
  vinv w0 S -> vstep S S' -> older_inv w0 q r S -> older_inv w0 q r S'.
Proof.
  intros Hnew Hl (Hwf & _ & Hfetch & Hadd & _) Hstep [Hkept Hfound].
  destruct Hstep as [t ts w|t f t' ts w w' Hf Hrun|s st ts w _|t ts w|st t ts w q'|
                     st t ts w ts' w' Hrun]; simpl in *; try by split.
  - split; [|done]. apply (thread_step_older_kept w0 t f w t' w'); try done.
    intros c Hc. by apply Hadd.
  - split; [done|]. intros t1 [Ht1|Ht1%list_elem_of_singleton]%elem_of_app; [by apply Hfound | subst; by split].
  - inversion Hrun as [? ? i t0 f t0' ? Hi Hf Hrun0]; subst.
    assert (t0 ∈ ts) as Hin by (by eapply list_elem_of_lookup_2).
    split.
    + apply (thread_step_older_kept w0 t0 f w t0' w'); try done.
      intros c ->. by specialize (Hfetch _ Hin).
    + intros t1 [->|]%elem_of_insert_inv; [|by apply Hfound].
      apply (thread_step_fetch_found q r t0 f w t0' w'); try done; [|by apply Hfound].
      by apply (older_kept_lookup w0).
Qed.

Lemma vreachable_older_inv (w0 : W) q r S :
  host_wf w0 -> CACHE_NAME ∉ bucket_names w0 -> storage_lookup w0 q = Some r ->
  vreachable w0 S -> older_inv w0 q r S.
Proof.
  intros Hwf Hnew Hl. revert S. apply rtc_ind_r.
  - split; [split; [exists []; by rewrite app_nil_r | done] | by intros ? ?%elem_of_nil].
  - intros S1 S2 Hr Hstep IH. apply (vstep_older_inv w0 q r S1 S2); try done.
    by apply vreachable_vinv.
Qed.
End Older.

(** ** Theorems *)

Section Theorems.
Context {W : Type} `{CacheHostLaws W}.

(** C17. Error behaviour seen by the page: the page's fetch fails with
    a network error exactly when no bucket holds the request and the
    network request of the handler fails; a cached response is never
    turned into an error, and there is no fallback page. *)
Theorem page_network_error (w : W) (q : Request) :
  host_wf w ->
  page_result (fst (on_fetch q w)) = PageNetworkError <->
  storage_lookup w q = None /\ is_rejected (next_answer w q) = true.
Proof.
  intros Hwf. destruct (on_fetch_step w q Hwf) as (w' & -> & _). simpl. unfold cache_first.
  destruct (storage_lookup w q); [naive_solver|].
  destruct (next_answer w q); simpl; naive_solver.
Qed.

(** C18. Composition of the install with concurrent fetches: in every
    system reachable from a new version on a well-formed host, however
    the fetch handlers of the controlling version interleave with the
    install, a new version that is installed or active had its install
    fulfilled, and its bucket answers every asset. *)
Theorem installed_version_has_assets (w0 : W) (S : VSys W) :
  host_wf w0 -> vreachable w0 S -> v_state S = Installed \/ v_state S = Activated ->
  v_install S = InstallDone (Fulfilled tt) /\ assets_stored (host_location w0) (v_world S).
Proof.
  intros Hwf Hr Hst. destruct (vreachable_vinv w0 S Hwf Hr) as (_ & _ & _ & _ & Hdone & Hstored).
  split; [by apply Hdone | by apply Hstored, Hdone].
Qed.

(** C19. Offline availability after the switch: once the new version
    is active, a fetch of an asset is answered with a response, never
    an error, and sends nothing to the network, whatever the network
    does and however the earlier fetches interleaved. *)
Theorem activated_assets_answered (w0 : W) (S : VSys W) p :
  host_wf w0 -> vreachable w0 S -> v_state S = Activated -> p ∈ ASSETS ->
  exists r, page_result (fst (on_fetch (request_of_path (host_location w0) p) (v_world S)))
              = PageResponse r /\
    network_log (snd (on_fetch (request_of_path (host_location w0) p) (v_world S)))
      = network_log (v_world S).
Proof.
  intros Hwf Hr Hact Hp.
  destruct (vreachable_vinv w0 S Hwf Hr) as (HwfS & _ & _ & _ & Hdone & Hstored).
  destruct (Hstored (Hdone (or_intror Hact)) p Hp) as [r0 Hm].
  destruct (storage_lookup (v_world S) (request_of_path (host_location w0) p)) as [r|] eqn:Hl;
    [|by destruct (storage_lookup_of_bucket _ _ _ _ HwfS Hm)].
  destruct (on_fetch_step (v_world S) (request_of_path (host_location w0) p) HwfS)
    as (w' & -> & _ & _ & _ & Hlog).
  unfold cache_first, cache_first_requests in *. rewrite Hl in Hlog |- *. simpl.
  exists r. split; [done|]. by rewrite Hlog, app_nil_r.
Qed.

(** C20. The stale copy survives the version switch: on a host where
    the new version's bucket [CACHE_NAME] does not exist yet, a request
    that [caches.match] answered with [r] before the new version was
    parsed is answered with [r] in every reachable system, whether the
    install was fulfilled, rejected or is still running, whether the
    new version is active, and however the fetches interleaved with the
    install: a fetch of it answers [r] without the network, and every
    fetch of it the page started and that settled answered the page
    with [r]. *)
Theorem older_answers_survive_switch (w0 : W) (S : VSys W) q r :
  host_wf w0 -> CACHE_NAME ∉ bucket_names w0 -> storage_lookup w0 q = Some r ->
  vreachable w0 S ->
  on_fetch q (v_world S) = (Fulfilled r, v_world S) /\
  forall s, FetchDone q s ∈ v_pool S -> page_result s = PageResponse r.
Proof.
  intros Hwf Hnew Hl Hr.
  destruct (vreachable_older_inv w0 q r S Hwf Hnew Hl Hr) as [Hkept Hfound].
  destruct (vreachable_vinv w0 S Hwf Hr) as [HwfS _].
  split.
  - unfold on_fetch. bind_step match_spec. by rewrite (older_kept_lookup w0 _ q r Hkept Hl).
  - intros s Hin. by rewrite (proj2 (Hfound _ Hin) s eq_refl).
Qed.
End Theorems.

(** ** A version switch on the concrete host *)

Definition index_q : Request := example_request "./index.html".

(** The page asks for [index.html] while the new version installs; the
    new version is installed and activated; the page asks again. *)
Definition switch_script : list VAction :=
  [VFetchEvent index_q; VInstallEvent; VFetchRun 0; VInstallRun; VInstallRun; VSettle;
   VActivate; VFetchEvent index_q; VFetchRun 1; VFetchRun 0; VFetchRun 1].

Definition switch_run (w : World) : VSys World := vrun switch_script (mkVSys Parsed InstallOpen [] w).

(** The scenario of the switch: on a host where an earlier version
    left [index.html] in its bucket [uni-bot-v0], the new version's
    install stores a fresh copy and the new version becomes active, yet
    both fetches of [index.html], before and after the switch, answer
    the page with the earlier version's copy. *)
Example version_switch_scenario :
  v_state (switch_run stale_world) = Activated /\
  bucket_match (v_world (switch_run stale_world)) CACHE_NAME index_q = Some (ok_response index_q) /\
  v_pool (switch_run stale_world) =
    [FetchDone index_q (Fulfilled old_index); FetchDone index_q (Fulfilled old_index)] /\
  old_index <> ok_response index_q.
Proof. split_and!; vm_compute; try reflexivity. discriminate. Qed.

Lemma page_network_error_witness :
  page_result (fst (on_fetch index_q world_net_error)) = PageNetworkError <->
  storage_lookup world_net_error index_q = None /\ is_rejected (next_answer world_net_error index_q) = true.
Proof. apply page_network_error. decide_by_compute. Defined.

Lemma installed_version_has_assets_witness :
  v_install (switch_run fresh_world) = InstallDone (Fulfilled tt) /\
  assets_stored (host_location fresh_world) (v_world (switch_run fresh_world)).
Proof.
  apply installed_version_has_assets;
    [decide_by_compute | apply vrun_rtc | right; vm_compute; reflexivity].
Defined.

Lemma activated_assets_answered_witness :
  exists r, page_result (fst (on_fetch (request_of_path (host_location fresh_world) "./")
                               (v_world (switch_run fresh_world)))) = PageResponse r /\
    network_log (snd (on_fetch (request_of_path (host_location fresh_world) "./")
                        (v_world (switch_run fresh_world))))
      = network_log (v_world (switch_run fresh_world)).
Proof.
  apply activated_assets_answered;
    [decide_by_compute | apply vrun_rtc | vm_compute; reflexivity | by left].
Defined.

Lemma older_answers_survive_switch_witness :
  on_fetch index_q (v_world (switch_run stale_world))
    = (Fulfilled old_index, v_world (switch_run stale_world)) /\
  forall s, FetchDone index_q s ∈ v_pool (switch_run stale_world) -> page_result s = PageResponse old_index.
Proof.
  apply (older_answers_survive_switch stale_world);
    [decide_by_compute | decide_by_compute | vm_compute; reflexivity | apply vrun_rtc].
Defined.

(** ** The lifecycle of one worker is a run of the system *)

Section Refinement.
Context {W : Type} `{!CacheHost W}.

(** A fetch event of [Lifecycle] as a settled fetch thread. *)
Definition answer_thread (a : Request * Settled Response) : Thread W := FetchDone a.1 a.2.

Lemma run_step_last (ts : list (Thread W)) t f t' w w' :
  thread_step t = Some f -> f w = (t', w') -> run_step (ts ++ [t], w) (ts ++ [t'], w').
Proof.
  intros Hf Hrun. rewrite <-(insert_app_last ts t t').
  eapply run_thread; [|done..]. by rewrite lookup_app_r, Nat.sub_diag.
Qed.

(** The install thread run without interruption settles as
    [on_install] does. *)
Lemma install_thread_runs ts (w : W) :
  rtc vstep (mkVSys Installing InstallOpen ts w)
            (mkVSys Installing (InstallDone (fst (on_install w))) ts (snd (on_install w))).
Proof.
  unfold on_install, bind. destruct (caches_open CACHE_NAME w) as [[c|e|] w1] eqn:Ho.
  - eapply rtc_l; [eapply v_install_run; [done | unfold await; by rewrite Ho]|].
    destruct (cache_addAll c ASSETS w1) as [s w2] eqn:Ha.
    apply rtc_once. eapply v_install_run; [done | unfold finish; by rewrite Ha].
  - apply rtc_once. eapply v_install_run; [done | unfold await; by rewrite Ho].
  - apply rtc_once. eapply v_install_run; [done | unfold await; by rewrite Ho].
Qed.

(** A fetch thread run without interruption settles as [on_fetch]
    does. *)
Lemma fetch_thread_runs ts (w : W) q :
  rtc run_step (ts ++ [FetchMatch q], w)
               (ts ++ [FetchDone q (fst (on_fetch q w))], snd (on_fetch q w)).
Proof.
  unfold on_fetch, bind. destruct (caches_match q w) as [[o|e|] w1] eqn:Hm.
  - eapply rtc_l; [eapply run_step_last; [done | unfold await; by rewrite Hm]|].
    destruct (js_or o (fetch q) w1) as [s w2] eqn:Hj.
    apply rtc_once. eapply run_step_last; [done | unfold finish; by rewrite Hj].
  - apply rtc_once. eapply run_step_last; [done | unfold await; by rewrite Hm].
  - apply rtc_once. eapply run_step_last; [done | unfold await; by rewrite Hm].
Qed.

Lemma pool_runs st t (ts ts' : list (Thread W)) w w' :
  rtc run_step (ts, w) (ts', w') -> rtc vstep (mkVSys st t ts w) (mkVSys st t ts' w').
Proof.
  apply (rtc_congruence (fun c : list (Thread W) * W => mkVSys st t c.1 c.2) vstep (ts, w) (ts', w')).
  intros [] [] ?. by apply v_fetch_run.
Qed.

(** A system that shows the state of one worker of [Lifecycle]. *)
Definition shows (V : VSys W) (S : Sys W) : Prop :=
  v_state V = sys_state S /\ v_world V = sys_world S /\
  v_pool V = answer_thread <$> sys_answers S /\
  (v_state V = Parsed -> v_install V = InstallOpen).

Lemma step_simulated (S S' : Sys W) V :
  step S S' -> shows V S -> exists V', rtc vstep V V' /\ shows V' S'.
Proof.
  intros Hstep. destruct V as [st t ts w0].
  intros (Hst & Hw & Hpool & Hparsed); simpl in *; subst.
  destruct Hstep as [w w' ans Hrun|w e w' ans Hrun|w w' ans Hrun|w ans|q w s w' ans Hrun];
    simpl in *; rewrite ?Hparsed by done.
  1-3: eexists; split;
    [eapply rtc_l; [apply v_install_event|]; etrans; [apply install_thread_runs|]; rewrite Hrun;
       simpl; try (apply rtc_once; by apply v_settle); done
    | split_and!; simpl; done].
  - exists (mkVSys Activated t (answer_thread <$> ans) w). split; [|done].
    apply rtc_once. apply v_activate.
  - exists (mkVSys Activated t (answer_thread <$> (ans ++ [(q, s)])) w'). split; [|done].
    eapply rtc_l; [apply (v_fetch_event _ _ _ _ q)|]. rewrite fmap_app. simpl.
    pose proof (fetch_thread_runs (answer_thread <$> ans) w q) as Hf. rewrite Hrun in Hf.
    by apply pool_runs.
Qed.

(** Refinement between the two models of the lifecycle: every
    state a worker reaches in [Lifecycle], where each handler runs to
    its end at once, is reached by the system of [Versions] with the
    same lifecycle state, the same host state, and a settled fetch
    thread for each answer given to the page, in order. *)
Lemma lifecycle_refines_versions (w0 : W) (S : Sys W) :
  reachable w0 S ->
  exists V, vreachable w0 V /\ v_state V = sys_state S /\ v_world V = sys_world S /\
    v_pool V = answer_thread <$> sys_answers S.
Proof.
  intros Hr. unfold reachable in Hr.
  cut (forall S1 V1, clos_refl_trans_1n _ step S1 S -> shows V1 S1 -> vreachable w0 V1 ->
         exists V, vreachable w0 V /\ shows V S).
  { intros Hgen. destruct (Hgen _ (mkVSys Parsed InstallOpen [] w0) Hr) as (V & HV & Hst & Hw & Hp & _);
      [split_and!; by try intros | apply rtc_refl | by exists V]. }
  intros S1 V1 Hr1. clear Hr. revert V1. induction Hr1 as [|S1 S2 S3 Hstep _ IH]; intros V1 Hshow HV1; [by exists V1|].
  destruct (step_simulated S1 S2 V1 Hstep Hshow) as (V2 & HV12 & Hshow2).
  apply (IH V2 Hshow2). unfold vreachable in *. by etrans.
Qed.
End Refinement.
